(** * Pipeline store service and project-member conversion

    A shallow embedding of

    - [store.PipelineService] (CreatePipeline, FindPipelineList,
      FindPipeline, PatchPipeline and their private helpers), and
    - [api.ProjectMemberRaw.ToProjectMember].

    The service threads three pieces of mutable state: the relational
    table [pipeline], the transaction opened by [BeginTx], and the
    pipeline cache.  They live in one [World] record which every
    operation passes along; a Go function returning [(value, error)]
    becomes a computation in the state-and-error monad [M]. *)

From Stdlib Require Import ZArith Lia.
From stdpp Require Import base option list gmap strings pretty.

Local Open Scope Z_scope.
Local Open Scope string_scope.
Local Open Scope list_scope.

(** ** Package [common]: error codes *)

Module common.

(** The two codes the pipeline service constructs. *)
Inductive Code := NotFound | Conflict.

#[global] Instance Code_eq_dec : EqDecision Code.
Proof. solve_decision. Defined.

End common.

(** A Go [error] value: either a classified [*common.Error] or an error
    produced by a collaborator (SQL driver, cache service). *)
Inductive error :=
| CommonError (code : common.Code) (err : string)
| ExternalError (msg : string).

#[global] Instance error_eq_dec : EqDecision error.
Proof. solve_decision. Defined.

(** ** Package [api]: the messages the service exchanges *)

(** [api.PipelineStatus] is a string type: [patchPipeline] converts the
    patch's [*string] with [api.PipelineStatus( *v )]. *)
Definition PipelineStatus := string.

Definition PipelineOpen : PipelineStatus := "OPEN".
Definition PipelineDone : PipelineStatus := "DONE".

Module PipelineRaw.
Record t := mk {
  ID : Z;
  CreatorID : Z;
  CreatedTs : Z;
  UpdaterID : Z;
  UpdatedTs : Z;
  Name : string;
  Status : PipelineStatus
}.

#[global] Instance PipelineRaw_eq_dec : EqDecision t.
Proof. solve_decision. Defined.
End PipelineRaw.
Abbreviation PipelineRaw := PipelineRaw.t.

Module PipelineCreate.
Record t := mk {
  CreatorID : Z;
  Name : string
}.
End PipelineCreate.
Abbreviation PipelineCreate := PipelineCreate.t.

Module PipelineFind.
Record t := mk {
  ID : option Z;
  Status : option PipelineStatus
}.
End PipelineFind.
Abbreviation PipelineFind := PipelineFind.t.

Module PipelinePatch.
Record t := mk {
  ID : Z;
  UpdaterID : Z;
  Status : option string
}.
End PipelinePatch.
Abbreviation PipelinePatch := PipelinePatch.t.

(** ** The relational store *)

(** Columns of table [pipeline]. *)
Inductive Column :=
| id | creator_id | created_ts | updater_id | updated_ts | name | status.

#[global] Instance Column_eq_dec : EqDecision Column.
Proof. solve_decision. Defined.

(** A query argument or a cell of a result row ([interface{}]). *)
Inductive Value :=
| VInt (z : Z)
| VText (s : string).

#[global] Instance Value_eq_dec : EqDecision Value.
Proof. solve_decision. Defined.

(** [$n] or a quoted literal. *)
Inductive Expr :=
| Placeholder (n : nat)
| Literal (v : Value).

#[global] Instance Expr_eq_dec : EqDecision Expr.
Proof. solve_decision. Defined.

(** One conjunct of a WHERE clause: ["1 = 1"] or ["col = expr"]. *)
Inductive Pred :=
| PTrue
| PEq (c : Column) (e : Expr).

#[global] Instance Pred_eq_dec : EqDecision Pred.
Proof. solve_decision. Defined.

(** The three statement shapes the service issues against [pipeline]. *)
Inductive Stmt :=
| Insert (cols : list Column) (vals : list Expr) (returning : list Column)
| Select (cols : list Column) (where_ : list Pred)
| Update (set : list (Column * Expr)) (where_ : Pred) (returning : list Column).

#[global] Instance Stmt_eq_dec : EqDecision Stmt.
Proof. solve_decision. Defined.

(** [id, creator_id, created_ts, updater_id, updated_ts, name, status] *)
Definition all_columns : list Column :=
  [id; creator_id; created_ts; updater_id; updated_ts; name; status].

Abbreviation Table := (list PipelineRaw).

Definition col_get (c : Column) (r : PipelineRaw) : Value :=
  match c with
  | id => VInt (PipelineRaw.ID r)
  | creator_id => VInt (PipelineRaw.CreatorID r)
  | created_ts => VInt (PipelineRaw.CreatedTs r)
  | updater_id => VInt (PipelineRaw.UpdaterID r)
  | updated_ts => VInt (PipelineRaw.UpdatedTs r)
  | name => VText (PipelineRaw.Name r)
  | status => VText (PipelineRaw.Status r)
  end.

(** Writing a cell; [None] when the value has the wrong type for the
    column. *)
Definition col_set (c : Column) (v : Value) (r : PipelineRaw) : option PipelineRaw :=
  let '(PipelineRaw.mk i cr ct up ut nm st) := r in
  match c, v with
  | id, VInt z => Some (PipelineRaw.mk z cr ct up ut nm st)
  | creator_id, VInt z => Some (PipelineRaw.mk i z ct up ut nm st)
  | created_ts, VInt z => Some (PipelineRaw.mk i cr z up ut nm st)
  | updater_id, VInt z => Some (PipelineRaw.mk i cr ct z ut nm st)
  | updated_ts, VInt z => Some (PipelineRaw.mk i cr ct up z nm st)
  | name, VText s => Some (PipelineRaw.mk i cr ct up ut s st)
  | status, VText s => Some (PipelineRaw.mk i cr ct up ut nm s)
  | _, _ => None
  end.

(** [$n] reads the n-th argument, counting from 1. *)
Definition eval_expr (args : list Value) (e : Expr) : option Value :=
  match e with
  | Placeholder O => None
  | Placeholder (S n) => args !! n
  | Literal v => Some v
  end.

Definition eval_pred (args : list Value) (p : Pred) (r : PipelineRaw) : option bool :=
  match p with
  | PTrue => Some true
  | PEq c e => v ← eval_expr args e; Some (bool_decide (col_get c r = v))
  end.

(** Conjunction of all conjuncts of a WHERE clause. *)
Fixpoint eval_where (args : list Value) (ps : list Pred) (r : PipelineRaw) : option bool :=
  match ps with
  | [] => Some true
  | p :: ps' =>
      b ← eval_pred args p r;
      bs ← eval_where args ps' r;
      Some (b && bs)
  end.

(** Applying a SET list (or an INSERT column list) to a row, left to
    right. *)
Fixpoint assign (args : list Value) (set : list (Column * Expr)) (r : PipelineRaw)
  : option PipelineRaw :=
  match set with
  | [] => Some r
  | (c, e) :: set' =>
      v ← eval_expr args e;
      r' ← col_set c v r;
      assign args set' r'
  end.

Definition project (cols : list Column) (r : PipelineRaw) : list Value :=
  (λ c, col_get c r) <$> cols.

(** Modelled from the spec: the relational store is an external
    collaborator; what is missing from the sources is the schema of table
    [pipeline].  Per the data model the store assigns the integer ID on
    creation and owns the timestamps, so a fresh row starts from
    [next_id] and the store clock, and an UPDATE re-stamps [updated_ts]. *)
Definition fresh_row (next_id clock : Z) : PipelineRaw :=
  PipelineRaw.mk next_id 0 clock 0 clock "" "".

Definition stamp (clock : Z) (r : PipelineRaw) : PipelineRaw :=
  let '(PipelineRaw.mk i cr ct up _ nm st) := r in
  PipelineRaw.mk i cr ct up clock nm st.

(** UPDATE over the rows in store order: returns the new table and the
    RETURNING rows. *)
Fixpoint exec_update (clock : Z) (args : list Value) (set : list (Column * Expr))
    (where_ : Pred) (returning : list Column) (t : Table)
  : option (Table * list (list Value)) :=
  match t with
  | [] => Some ([], [])
  | r :: t' =>
      b ← eval_pred args where_ r;
      '(t'', out) ← exec_update clock args set where_ returning t';
      if b : bool then
        r' ← assign args set r;
        let r'' := stamp clock r' in
        Some (r'' :: t'', project returning r'' :: out)
      else Some (r :: t'', out)
  end.

(** SELECT over the rows in store order. *)
Fixpoint exec_select (args : list Value) (cols : list Column) (where_ : list Pred)
    (t : Table) : option (list (list Value)) :=
  match t with
  | [] => Some []
  | r :: t' =>
      b ← eval_where args where_ r;
      out ← exec_select args cols where_ t';
      Some (if b : bool then project cols r :: out else out)
  end.

(** Executing one statement on a table. [None] is a statement the store
    rejects (unbound placeholder, ill-typed value, column/value count
    mismatch).  The result carries the new table, whether a row was
    inserted, and the rows handed back to the client. *)
Definition exec (next_id clock : Z) (q : Stmt) (args : list Value) (t : Table)
  : option (Table * bool * list (list Value)) :=
  match q with
  | Insert cols vals returning =>
      if (length cols =? length vals)%nat then
        r ← assign args (zip cols vals) (fresh_row next_id clock);
        Some (t ++ [r], true, [project returning r])
      else None
  | Select cols where_ =>
      out ← exec_select args cols where_ t;
      Some (t, false, out)
  | Update set where_ returning =>
      '(t', out) ← exec_update clock args set where_ returning t;
      Some (t', false, out)
  end.

(** ** The world the service runs in *)

(** What the collaborators answer with an error during the operation at
    hand.  Each entry is the error the named call returns, if any; [Scan]
    may depend on the row it decodes and [UpsertCache] on the key.
    [f_query] stands for every reason the store has to refuse the
    statement of the operation: connectivity, a violated constraint of the
    schema, and so on.  With [f_rows = Some e] the cursor over the result
    breaks after delivering [f_rows_after] rows: [Next] then answers
    [false] and [Err] reports [e].  The record describes one operation,
    which sends one statement and opens one cursor; between two operations
    the environment may replace it ([with_faults]), so that a store which
    takes an INSERT may refuse the UPDATE that follows. *)
Record Faults := mkFaults {
  f_begin : option error;                     (* db.BeginTx *)
  f_query : option error;                     (* tx.QueryContext *)
  f_scan : list Value → option error;         (* rows.Scan *)
  f_rows : option error;                      (* rows.Err *)
  f_rows_after : nat;                         (* rows delivered before rows.Next fails *)
  f_commit : option error;                    (* tx.Commit *)
  f_find_cache : option error;                (* cache.FindCache *)
  f_upsert_cache : Z → option error           (* cache.UpsertCache *)
}.

Definition no_faults : Faults :=
  mkFaults None None (λ _, None) None 0 None None (λ _, None).

(** What an observer of the store and cache boundaries sees. *)
Inductive Event :=
| EvBeginTx (ok : bool)
| EvQuery (q : Stmt) (args : list Value) (ok : bool)
| EvCommit (ok : bool)
| EvRollback
| EvFindCache (key : Z) (hit : bool)
| EvUpsertCache (key : Z) (value : PipelineRaw) (ok : bool).

#[global] Instance Event_eq_dec : EqDecision Event.
Proof. solve_decision. Defined.

Record World := mkWorld {
  table : Table;                    (* committed rows, store order *)
  txn : option Table;               (* working copy of the open transaction *)
  next_id : Z;                      (* next ID the store hands out *)
  clock : Z;                        (* store clock *)
  cache : gmap Z PipelineRaw;       (* namespace api.PipelineCache *)
  faults : Faults;
  log : list Event                  (* boundary calls, oldest first *)
}.

Definition emit (e : Event) (w : World) : World :=
  mkWorld (table w) (txn w) (next_id w) (clock w) (cache w) (faults w) (log w ++ [e]).

Definition set_txn (t : option Table) (w : World) : World :=
  mkWorld (table w) t (next_id w) (clock w) (cache w) (faults w) (log w).

Definition set_table (t : Table) (w : World) : World :=
  mkWorld t (txn w) (next_id w) (clock w) (cache w) (faults w) (log w).

Definition set_next_id (n : Z) (w : World) : World :=
  mkWorld (table w) (txn w) n (clock w) (cache w) (faults w) (log w).

Definition set_cache (c : gmap Z PipelineRaw) (w : World) : World :=
  mkWorld (table w) (txn w) (next_id w) (clock w) c (faults w) (log w).

(** ** The state-and-error monad *)

Inductive Result (A : Type) :=
| Ok (a : A)
| Err (e : error).
Arguments Ok {A} a.
Arguments Err {A} e.

Definition M (A : Type) : Type := World → Result A * World.

#[global] Instance M_ret : MRet M := λ A a w, (Ok a, w).

#[global] Instance M_bind : MBind M := λ A B f m w,
  match m w with
  | (Ok a, w') => f a w'
  | (Err e, w') => (Err e, w')
  end.

#[global] Instance M_throw : MThrow error M := λ A e w, (Err e, w).

(** [if err != nil { return nil, wrap(err) }] *)
Definition wrap_err {A} (wrap : error → error) (m : M A) : M A := λ w,
  match m w with
  | (Ok a, w') => (Ok a, w')
  | (Err e, w') => (Err (wrap e), w')
  end.

(** [defer d]: [d] runs when the enclosing function returns, on every
    path, and its own result is dropped. *)
Definition defer {A B} (d : M B) (body : M A) : M A := λ w,
  let '(r, w') := body w in (r, (d w').2).

(** ** Store and cache primitives *)

Definition ErrTxDone : error :=
  ExternalError "sql: transaction has already been committed or rolled back".

(** [db.BeginTx]: the transaction works on a private copy of the table. *)
Definition BeginTx : M unit := λ w,
  match f_begin (faults w) with
  | Some e => (Err e, emit (EvBeginTx false) w)
  | None => (Ok (), emit (EvBeginTx true) (set_txn (Some (table w)) w))
  end.

(** [*sql.Rows], the cursor over a result: the row [Scan] reads, the rows
    [Next] will still deliver, and the error that ends the iteration, the
    one [Err] reports. *)
Record Rows := mkRows {
  current : option (list Value);
  pending : list (list Value);
  lasterr : option error
}.

(** The cursor a query hands back: all the rows, or the rows delivered
    before it breaks. *)
Definition open_cursor (F : Faults) (rows : list (list Value)) : Rows :=
  match f_rows F with
  | Some e => mkRows None (take (f_rows_after F) rows) (Some e)
  | None => mkRows None rows None
  end.

(** [rows.Next]: moves to the next row, [false] when none is delivered. *)
Definition Next (rows : Rows) : bool * Rows :=
  match pending rows with
  | r :: rest => (true, mkRows (Some r) rest (lasterr rows))
  | [] => (false, mkRows None [] (lasterr rows))
  end.

(** [tx.QueryContext]: runs the statement inside the open transaction and
    hands back the cursor over the result rows. *)
Definition QueryContext (q : Stmt) (args : list Value) : M Rows := λ w,
  match f_query (faults w) with
  | Some e => (Err e, emit (EvQuery q args false) w)
  | None =>
      match txn w with
      | None => (Err ErrTxDone, emit (EvQuery q args false) w)
      | Some t =>
          match exec (next_id w) (clock w) q args t with
          | None =>
              (Err (ExternalError "pq: statement rejected"), emit (EvQuery q args false) w)
          | Some (t', inserted, rows) =>
              let w1 := set_txn (Some t') w in
              let w2 := if inserted : bool then set_next_id (next_id w + 1) w1 else w1 in
              (Ok (open_cursor (faults w) rows), emit (EvQuery q args true) w2)
          end
      end
  end.

(** [tx.Commit]: installs the working copy; a failed commit leaves the
    committed table as it was. *)
Definition Commit : M unit := λ w,
  match txn w with
  | None => (Err ErrTxDone, emit (EvCommit false) w)
  | Some t =>
      match f_commit (faults w) with
      | Some e => (Err e, emit (EvCommit false) (set_txn None w))
      | None => (Ok (), emit (EvCommit true) (set_txn None (set_table t w)))
      end
  end.

(** [tx.Rollback]: drops the working copy; nothing to drop after a
    commit. *)
Definition Rollback : M unit := λ w,
  match txn w with
  | None => (Err ErrTxDone, emit EvRollback w)
  | Some _ => (Ok (), emit EvRollback (set_txn None w))
  end.

(** Modelled from the spec: the [api.CacheService] implementation is not
    part of the sources. Its contract is [Get(kind, id) → (entity, found)]
    and [Put(kind, id, entity) → error] at single-entity granularity, so
    the namespace [api.PipelineCache] is a finite map from ID to
    snapshot. *)
Definition FindCache (key : Z) : M (option PipelineRaw) := λ w,
  match f_find_cache (faults w) with
  | Some e => (Err e, emit (EvFindCache key false) w)
  | None => (Ok (cache w !! key), emit (EvFindCache key (bool_decide (is_Some (cache w !! key)))) w)
  end.

Definition UpsertCache (key : Z) (value : PipelineRaw) : M unit := λ w,
  match f_upsert_cache (faults w) key with
  | Some e => (Err e, emit (EvUpsertCache key value false) w)
  | None => (Ok (), emit (EvUpsertCache key value true) (set_cache (<[key := value]> (cache w)) w))
  end.

Definition ErrRowsClosed : error := ExternalError "sql: Rows are closed".

(** [rows.Scan(&ID, &CreatorID, &CreatedTs, &UpdaterID, &UpdatedTs, &Name,
    &Status)]: decodes the current row positionally; on a cursor with no
    current row it answers with the error that ended the iteration. *)
Definition Scan (rows : Rows) : M PipelineRaw := λ w,
  match current rows with
  | None => (Err (default ErrRowsClosed (lasterr rows)), w)
  | Some cells =>
      match f_scan (faults w) cells with
      | Some e => (Err e, w)
      | None =>
          match cells with
          | [VInt i; VInt cr; VInt ct; VInt up; VInt ut; VText nm; VText st] =>
              (Ok (PipelineRaw.mk i cr ct up ut nm st), w)
          | _ => (Err (ExternalError "sql: Scan error"), w)
          end
      end
  end.

(** [rows.Err] *)
Definition RowsErr (rows : Rows) : M unit := λ w,
  match lasterr rows with
  | Some e => (Err e, w)
  | None => (Ok (), w)
  end.

(** ** [store.PipelineService] *)

Section PipelineService.

(** [store.FormatError], defined elsewhere in package [store]: maps a
    driver error to the error handed to the caller. *)
Variable FormatError : error → error.

(** How [fmt] renders a [*api.PipelineFind] under [%+v]. *)
Variable fmt_find : PipelineFind → string.

(** [createPipeline] creates a new pipeline. *)
Definition createPipeline (create : PipelineCreate) : M PipelineRaw :=
  row ← wrap_err FormatError
    (QueryContext
       (Insert [creator_id; updater_id; name; status]
               [Placeholder 1; Placeholder 2; Placeholder 3; Literal (VText "OPEN")]
               all_columns)
       [VInt (PipelineCreate.CreatorID create);
        VInt (PipelineCreate.CreatorID create);
        VText (PipelineCreate.Name create)]);
  let '(_, row) := Next row in
  pipelineRaw ← wrap_err FormatError (Scan row);
  mret pipelineRaw.

(** [for rows.Next() { rows.Scan(...); append }], by recursion on the rows
    the cursor still has to deliver ([todo] is [pending rows]). *)
Fixpoint scan_rows (todo : list (list Value)) (rows : Rows)
    (pipelineRawList : list PipelineRaw) : M (list PipelineRaw) :=
  match todo with
  | [] => mret pipelineRawList
  | _ :: todo' =>
      let '(_, rows) := Next rows in
      pipelineRaw ← wrap_err FormatError (Scan rows);
      scan_rows todo' rows (pipelineRawList ++ [pipelineRaw])
  end.

Definition findPipelineList (find : PipelineFind) : M (list PipelineRaw) :=
  (* Build WHERE clause. *)
  let '(where_, args) := ([PTrue], @nil Value) in
  let '(where_, args) :=
    match PipelineFind.ID find with
    | Some v => (where_ ++ [PEq id (Placeholder (length args + 1))], args ++ [VInt v])
    | None => (where_, args)
    end in
  let '(where_, args) :=
    match PipelineFind.Status find with
    | Some v => (where_ ++ [PEq status (Placeholder (length args + 1))], args ++ [VText v])
    | None => (where_, args)
    end in
  rows ← wrap_err FormatError (QueryContext (Select all_columns where_) args);
  (* Iterate over result set and deserialize rows into pipelineRawList. *)
  pipelineRawList ← scan_rows (pending rows) rows [];
  wrap_err FormatError (RowsErr rows);;
  mret pipelineRawList.

(** [patchPipeline] updates a pipeline by ID. Returns the new state of
    the pipeline after update. *)
Definition patchPipeline (patch : PipelinePatch) : M PipelineRaw :=
  (* Build UPDATE clause. *)
  let '(set, args) :=
    ([(updater_id, Placeholder 1)], [VInt (PipelinePatch.UpdaterID patch)]) in
  let '(set, args) :=
    match PipelinePatch.Status patch with
    | Some v => (set ++ [(status, Placeholder (length args + 1))], args ++ [VText v])
    | None => (set, args)
    end in
  let args := args ++ [VInt (PipelinePatch.ID patch)] in
  (* Execute update query with RETURNING. *)
  row ← wrap_err FormatError
    (QueryContext (Update set (PEq id (Placeholder (length args))) all_columns) args);
  let '(more, row) := Next row in
  if more : bool then
    pipelineRaw ← wrap_err FormatError (Scan row);
    mret pipelineRaw
  else
    mthrow (M := M) (CommonError common.NotFound
              ("pipeline ID not found: " +:+ pretty (PipelinePatch.ID patch))).

(** [CreatePipeline] creates a new pipeline. *)
Definition CreatePipeline (create : PipelineCreate) : M PipelineRaw :=
  wrap_err FormatError BeginTx;;
  defer Rollback (
    pipeline ← createPipeline create;
    wrap_err FormatError Commit;;
    UpsertCache (PipelineRaw.ID pipeline) pipeline;;
    mret pipeline).

(** [for _, pipeline := range list { UpsertCache(...) }] *)
Fixpoint upsert_each (list : list PipelineRaw) : M unit :=
  match list with
  | [] => mret ()
  | pipeline :: list' =>
      UpsertCache (PipelineRaw.ID pipeline) pipeline;;
      upsert_each list'
  end.

(** [FindPipelineList] retrieves a list of pipelines based on find. *)
Definition FindPipelineList (find : PipelineFind) : M (list PipelineRaw) :=
  wrap_err FormatError BeginTx;;
  defer Rollback (
    list ← findPipelineList find;
    upsert_each list;;
    mret list).

(** [FindPipeline] retrieves a single pipeline based on find.
    Returns ECONFLICT if finding more than 1 matching records.
    [Ok None] is Go's [(nil, nil)]. *)
Definition FindPipeline (find : PipelineFind) : M (option PipelineRaw) :=
  cached ←
    match PipelineFind.ID find with
    | Some key => FindCache key
    | None => mret (M := M) None
    end;
  match cached with
  | Some pipelineRaw => mret (M := M) (Some pipelineRaw)
  | None =>
      wrap_err FormatError BeginTx;;
      defer Rollback (
        pipelineRawList ← findPipelineList find;
        if bool_decide (length pipelineRawList = 0%nat) then mret (M := M) None
        else if bool_decide (1 < length pipelineRawList)%nat then
          mthrow (M := M) (CommonError common.Conflict
                    ("found " +:+ pretty (length pipelineRawList)
                     +:+ " pipelines with filter " +:+ fmt_find find
                     +:+ ", expect 1"))
        else
          match pipelineRawList !! 0%nat with
          | Some first =>
              UpsertCache (PipelineRaw.ID first) first;;
              mret (Some first)
          | None => mthrow (M := M) (ExternalError "runtime error: index out of range")
          end)
  end.

(** [PatchPipeline] updates an existing pipeline by ID.
    Returns ENOTFOUND if pipeline does not exist. *)
Definition PatchPipeline (patch : PipelinePatch) : M PipelineRaw :=
  wrap_err FormatError BeginTx;;
  defer Rollback (
    pipelineRaw ← wrap_err FormatError (patchPipeline patch);
    wrap_err FormatError Commit;;
    UpsertCache (PipelineRaw.ID pipelineRaw) pipelineRaw;;
    mret pipelineRaw).

End PipelineService.

(** ** [api.ProjectMemberRaw.ToProjectMember] *)

Definition ProjectRoleProvider := string.

Module ProjectMemberRaw.
Record t := mk {
  ID : Z;
  CreatorID : Z;
  CreatedTs : Z;
  UpdaterID : Z;
  UpdatedTs : Z;
  ProjectID : Z;
  Role : string;
  PrincipalID : Z;
  RoleProvider : ProjectRoleProvider;
  Payload : string
}.
End ProjectMemberRaw.
Abbreviation ProjectMemberRaw := ProjectMemberRaw.t.

Module ProjectMember.
(** [Principal] stands for [api.Principal], declared elsewhere in package
    [api]; the three relation pointers are [nil] when [None]. *)
Record t (Principal : Type) := mk {
  ID : Z;
  CreatorID : Z;
  Creator : option Principal;
  CreatedTs : Z;
  UpdaterID : Z;
  Updater : option Principal;
  UpdatedTs : Z;
  ProjectID : Z;
  Role : string;
  PrincipalID : Z;
  Principal_ : option Principal;
  RoleProvider : ProjectRoleProvider;
  Payload : string
}.
Arguments mk {Principal}.
Arguments ID {Principal}.
Arguments CreatorID {Principal}.
Arguments Creator {Principal}.
Arguments CreatedTs {Principal}.
Arguments UpdaterID {Principal}.
Arguments Updater {Principal}.
Arguments UpdatedTs {Principal}.
Arguments ProjectID {Principal}.
Arguments Role {Principal}.
Arguments PrincipalID {Principal}.
Arguments Principal_ {Principal}.
Arguments RoleProvider {Principal}.
Arguments Payload {Principal}.
End ProjectMember.
Abbreviation ProjectMember := ProjectMember.t.

(** [ToProjectMember] creates an instance of ProjectMember based on the
    ProjectMemberRaw. *)
Definition ToProjectMember {Principal : Type} (raw : ProjectMemberRaw)
  : ProjectMember Principal :=
  {| ProjectMember.ID := ProjectMemberRaw.ID raw;
     (* Standard fields *)
     ProjectMember.CreatorID := ProjectMemberRaw.CreatorID raw;
     ProjectMember.Creator := None;
     ProjectMember.CreatedTs := ProjectMemberRaw.CreatedTs raw;
     ProjectMember.UpdaterID := ProjectMemberRaw.UpdaterID raw;
     ProjectMember.Updater := None;
     ProjectMember.UpdatedTs := ProjectMemberRaw.UpdatedTs raw;
     (* Related fields *)
     ProjectMember.ProjectID := ProjectMemberRaw.PrincipalID raw;
     (* Domain specific fields *)
     ProjectMember.Role := ProjectMemberRaw.Role raw;
     ProjectMember.PrincipalID := ProjectMemberRaw.PrincipalID raw;
     ProjectMember.Principal_ := None;
     ProjectMember.RoleProvider := ProjectMemberRaw.RoleProvider raw;
     ProjectMember.Payload := ProjectMemberRaw.Payload raw |}.

(** ** Reference descriptions used to state the results

    None of these is code of the service: they say, in closed form, what
    the statements built by the service amount to, and the lemmas below
    connect them to the embedding. *)

(** A row after [SET updater_id = ..., status = ...], the status only when
    the patch carries one. *)
Definition apply_patch (patch : PipelinePatch) (r : PipelineRaw) : PipelineRaw :=
  PipelineRaw.mk (PipelineRaw.ID r) (PipelineRaw.CreatorID r) (PipelineRaw.CreatedTs r)
    (PipelinePatch.UpdaterID patch) (PipelineRaw.UpdatedTs r) (PipelineRaw.Name r)
    (default (PipelineRaw.Status r) (PipelinePatch.Status patch)).

(** What the UPDATE makes of a row: rows with the patch ID are rewritten
    and re-stamped, the others are kept. *)
Definition patched (clock : Z) (patch : PipelinePatch) (r : PipelineRaw) : PipelineRaw :=
  if bool_decide (PipelineRaw.ID r = PipelinePatch.ID patch)
  then stamp clock (apply_patch patch r) else r.

(** The rows carrying the patch ID, in store order. *)
Definition hits (patch : PipelinePatch) (t : Table) : Table :=
  filter (λ r, PipelineRaw.ID r = PipelinePatch.ID patch) t.

(** SET list, arguments and statement of the UPDATE of a patch. *)
Definition patch_set (patch : PipelinePatch) : list (Column * Expr) :=
  (updater_id, Placeholder 1) ::
  match PipelinePatch.Status patch with
  | Some _ => [(status, Placeholder 2)]
  | None => []
  end.

Definition patch_args (patch : PipelinePatch) : list Value :=
  VInt (PipelinePatch.UpdaterID patch) ::
  match PipelinePatch.Status patch with
  | Some v => [VText v]
  | None => []
  end ++ [VInt (PipelinePatch.ID patch)].

Definition patch_stmt (patch : PipelinePatch) : Stmt :=
  Update (patch_set patch) (PEq id (Placeholder (length (patch_args patch)))) all_columns.

(** The filter of a find request: the conjunction of the fields it sets. *)
Definition pipeline_matches (find : PipelineFind) (r : PipelineRaw) : bool :=
  match PipelineFind.ID find with
  | Some v => bool_decide (PipelineRaw.ID r = v)
  | None => true
  end &&
  match PipelineFind.Status find with
  | Some v => bool_decide (PipelineRaw.Status r = v)
  | None => true
  end.

(** Statement and arguments of the INSERT, and the row it creates. *)
Definition insert_stmt : Stmt :=
  Insert [creator_id; updater_id; name; status]
         [Placeholder 1; Placeholder 2; Placeholder 3; Literal (VText "OPEN")]
         all_columns.

Definition insert_args (create : PipelineCreate) : list Value :=
  [VInt (PipelineCreate.CreatorID create);
   VInt (PipelineCreate.CreatorID create);
   VText (PipelineCreate.Name create)].

Definition created_row (create : PipelineCreate) (w : World) : PipelineRaw :=
  PipelineRaw.mk (next_id w) (PipelineCreate.CreatorID create) (clock w)
    (PipelineCreate.CreatorID create) (clock w) (PipelineCreate.Name create) PipelineOpen.

(** The error of a cursor that breaks before its first row, if it does. *)
Definition cursor_breaks_first (F : Faults) : option error :=
  match f_rows F with
  | Some e => if (f_rows_after F =? 0)%nat then Some e else None
  | None => None
  end.

(** [&common.Error{Code: common.NotFound, Err: "pipeline ID not found: <id>"}] *)
Definition not_found_error (patch : PipelinePatch) : error :=
  CommonError common.NotFound ("pipeline ID not found: " +:+ pretty (PipelinePatch.ID patch)).


(** No store call of a read round trip fails. *)
Definition query_ok (w : World) : Prop :=
  f_begin (faults w) = None ∧
  f_query (faults w) = None ∧
  (∀ cells, f_scan (faults w) cells = None) ∧
  f_rows (faults w) = None.

(** No store call of a write round trip fails. *)
Definition store_ok (w : World) : Prop :=
  query_ok w ∧ f_commit (faults w) = None.

(** The probe of [FindPipeline] does not produce an entity: the request
    carries no ID, or the cache answers and holds nothing under it. *)
Definition cache_miss (find : PipelineFind) (w : World) : Prop :=
  match PipelineFind.ID find with
  | None => True
  | Some key => f_find_cache (faults w) = None ∧ cache w !! key = None
  end.

(** Every cache write in [evs] comes after a successful commit in [evs]. *)
Definition commit_precedes_upserts (evs : list Event) : Prop :=
  ∀ pre key value ok post,
    evs = pre ++ EvUpsertCache key value ok :: post → EvCommit true ∈ pre.

(** The same as a check that runs over the events, [committed] telling
    whether a successful commit has been seen. *)
Fixpoint upserts_follow_commit (committed : bool) (evs : list Event) : bool :=
  match evs with
  | [] => true
  | EvCommit true :: evs' => upserts_follow_commit true evs'
  | EvUpsertCache _ _ _ :: evs' => committed && upserts_follow_commit committed evs'
  | _ :: evs' => upserts_follow_commit committed evs'
  end.

(** Recognises a cache write. *)
Definition is_upsert (e : Event) : bool :=
  match e with EvUpsertCache _ _ _ => true | _ => false end.

(** ** Sample worlds *)

(** A [FormatError] that hands every error on as it is, and a rendering
    of find requests. *)
Definition same_error : error → error := λ e, e.
Definition plain_find : PipelineFind → string := λ _, "&{}".

(** An empty store whose next ID is 1. *)

Definition empty_world : World := mkWorld [] None 1 100 ∅ no_faults [].

Definition release_42 : PipelineCreate := PipelineCreate.mk 7 "release-42".

(** One pipeline, already [DONE], not yet cached. *)
Definition done_world : World :=
  mkWorld [PipelineRaw.mk 1 7 100 7 150 "release-42" PipelineDone] None 2 200 ∅ no_faults [].

(** Two open pipelines. *)
Definition two_open_world : World :=
  mkWorld [PipelineRaw.mk 1 7 100 7 100 "a" PipelineOpen;
           PipelineRaw.mk 2 7 110 7 110 "b" PipelineOpen] None 3 200 ∅ no_faults [].

(** The cache service refuses every write. *)
Definition cache_down : Faults :=
  mkFaults None None (λ _, None) None 0 None None
    (λ _, Some (ExternalError "cache: write failed")).

(** The same world with other failures: what the collaborators answer to
    the next operation need not be what they answered to the last. *)
Definition with_faults (f : Faults) (w : World) : World :=
  mkWorld (table w) (txn w) (next_id w) (clock w) (cache w) f (log w).

(** A patch asking to move pipeline 1 back to [OPEN]. *)
Definition reopen : PipelinePatch := PipelinePatch.mk 1 8 (Some PipelineOpen).

(** A patch for an ID no row carries. *)
Definition patch_absent : PipelinePatch := PipelinePatch.mk 5 9 (Some PipelineDone).

(** A lookup by ID that also asks for status [DONE]. *)
Definition find_1_done : PipelineFind := PipelineFind.mk (Some 1) (Some PipelineDone).

(** A filtered lookup: every open pipeline. *)
Definition find_open : PipelineFind := PipelineFind.mk None (Some PipelineOpen).

(** The world after creating [release_42] in [empty_world]: the new row is
    committed and cached under ID 1 with status [OPEN]. *)
Definition created_world : World :=
  (CreatePipeline same_error release_42 empty_world).2.

Definition sample_member : ProjectMemberRaw :=
  ProjectMemberRaw.mk 1 2 100 2 100 30 "OWNER" 40 "BYTEBASE" "".

(** A computation only ever appends to the log. *)
Definition extends_log {A} (m : M A) : Prop :=
  ∀ w, ∃ new, log (m w).2 = log w ++ new.

(** ** Further definitions *)

(** [ProjectRoleProviderBytebase] and [ProjectRoleProviderGitLabSelfHost]. *)
Definition ProjectRoleProviderBytebase : ProjectRoleProvider := "BYTEBASE".
Definition ProjectRoleProviderGitLabSelfHost : ProjectRoleProvider := "GITLAB_SELF_HOST".

(** [func (e ProjectRoleProvider) String() string] *)
Definition ProjectRoleProvider_String (e : ProjectRoleProvider) : string :=
  if decide (e = ProjectRoleProviderBytebase) then "BYTEBASE"
  else if decide (e = ProjectRoleProviderGitLabSelfHost) then "GITLAB_SELF_HOST"
  else "".

(** A computation leaves the observation [f] of the world as it found it. *)
Definition keeps {A B} (f : World → B) (m : M A) : Prop :=
  ∀ w, f (m w).2 = f w.

(** A computation only appends events accepted by [P]. *)
Definition emits_only {A} (P : Event → bool) (m : M A) : Prop :=
  ∀ w, ∃ new, log (m w).2 = log w ++ new ∧ forallb P new = true.

(** Events of a read: no commit, and no statement but a SELECT. *)
Definition read_event (e : Event) : bool :=
  match e with
  | EvCommit _ => false
  | EvQuery (Select _ _) _ _ => true
  | EvQuery _ _ _ => false
  | _ => true
  end.

(** Events of a listing: those of a read, the cache probe excluded. *)
Definition list_event (e : Event) : bool :=
  match e with
  | EvFindCache _ _ => false
  | _ => read_event e
  end.

(** The cache after writing each entity of [l] under its ID, first to
    last. *)
Definition cache_all (l : list PipelineRaw) (c : gmap Z PipelineRaw) : gmap Z PipelineRaw :=
  foldl (λ c p, <[PipelineRaw.ID p := p]> c) c l.

(** The cache service refuses every probe. *)
Definition probe_down : Faults :=
  mkFaults None None (λ _, None) None 0 None (Some (ExternalError "cache: read failed"))
    (λ _, None).

(** The cache service refuses writes under key 2 only. *)
Definition cache_down_at_2 : Faults :=
  mkFaults None None (λ _, None) None 0 None None
    (λ key, if decide (key = 2) then Some (ExternalError "cache: write failed") else None).

(** A lookup by ID alone, and a listing with no field set. *)
Definition find_1 : PipelineFind := PipelineFind.mk (Some 1) None.
Definition find_all : PipelineFind := PipelineFind.mk None None.

(** One open pipeline, cached as stored, behind a cache service that
    refuses every write. *)
Definition cached_open_world : World :=
  mkWorld [PipelineRaw.mk 1 7 100 7 100 "release-42" PipelineOpen] None 2 200
    {[ 1 := PipelineRaw.mk 1 7 100 7 100 "release-42" PipelineOpen ]} cache_down [].

(** A patch closing pipeline 1. *)
Definition close_1 : PipelinePatch := PipelinePatch.mk 1 8 (Some PipelineDone).

(** A patch of pipeline 1 that carries no status. *)
Definition touch_1 : PipelinePatch := PipelinePatch.mk 1 8 None.

(** The cursor breaks before it delivers a row. *)
Definition cursor_broken : Faults :=
  mkFaults None None (λ _, None) (Some (ExternalError "driver: bad connection")) 0 None None
    (λ _, None).

(** The store refuses the statement. *)
Definition statement_refused : Faults :=
  mkFaults None (Some (ExternalError "pq: statement refused")) (λ _, None) None 0 None None
    (λ _, None).

(** ** Proof automation *)

(** Unfolds the service down to matches on the world. *)
Ltac unfold_service :=
  unfold CreatePipeline, PatchPipeline, FindPipeline, FindPipelineList,
    createPipeline, patchPipeline, findPipelineList, defer, wrap_err,
    BeginTx, Commit, Rollback, QueryContext, UpsertCache, FindCache, RowsErr, Next,
    open_cursor,
    mbind, M_bind, mret, M_ret, mthrow, M_throw in *.

(** Reads fields through the world updates. *)
Ltac world_step :=
  cbn [faults f_begin f_query f_scan f_rows f_rows_after f_commit f_find_cache
       f_upsert_cache
       table txn clock next_id cache log emit set_txn set_table set_next_id set_cache
       fst snd].

(** Splits a world into its fields. *)
Ltac open_world w :=
  destruct w as [?t ?tx ?nid ?clk ?c [?fb ?fq ?fs ?fr ?fra ?fc ?ffc ?fuc] ?lg].

(** Splits membership in an explicit list into its cases. *)
Ltac elem_cases H :=
  repeat (apply elem_of_cons in H as [H|H]; [try discriminate H|]);
  try (by apply not_elem_of_nil in H).

(** ** The store interpreter on the statements the service builds *)

Lemma patched_hit clock patch r :
  PipelineRaw.ID r = PipelinePatch.ID patch →
  patched clock patch r = stamp clock (apply_patch patch r).
Proof. intros H. unfold patched. by rewrite bool_decide_eq_true_2. Qed.

Lemma patched_miss clock patch r :
  PipelineRaw.ID r ≠ PipelinePatch.ID patch → patched clock patch r = r.
Proof. intros H. unfold patched. by rewrite bool_decide_eq_false_2. Qed.

Lemma patched_fields clock patch r :
  let r' := patched clock patch r in
  PipelineRaw.ID r' = PipelineRaw.ID r ∧
  PipelineRaw.CreatorID r' = PipelineRaw.CreatorID r ∧
  PipelineRaw.CreatedTs r' = PipelineRaw.CreatedTs r ∧
  PipelineRaw.Name r' = PipelineRaw.Name r ∧
  (PipelinePatch.Status patch = None → PipelineRaw.Status r' = PipelineRaw.Status r) ∧
  (PipelineRaw.ID r ≠ PipelinePatch.ID patch → r' = r) ∧
  (PipelineRaw.ID r = PipelinePatch.ID patch →
     PipelineRaw.UpdaterID r' = PipelinePatch.UpdaterID patch ∧
     ∀ s, PipelinePatch.Status patch = Some s → PipelineRaw.Status r' = s).
Proof.
  cbv zeta. destruct (decide (PipelineRaw.ID r = PipelinePatch.ID patch)) as [Hid|Hid].
  - rewrite patched_hit by done. destruct r, patch as [pid up [s|]]; cbn in *.
    all: split_and!; try done; try congruence.
    all: intros _; split; [done|]; congruence.
  - rewrite patched_miss by done. split_and!; done.
Qed.

Lemma hits_nil patch t :
  hits patch t = [] ↔ ∀ r, r ∈ t → PipelineRaw.ID r ≠ PipelinePatch.ID patch.
Proof.
  unfold hits. split.
  - intros Hnil r Hr Hid.
    assert (r ∈ filter (λ r, PipelineRaw.ID r = PipelinePatch.ID patch) t) as Hin
      by (by apply list_elem_of_filter).
    rewrite Hnil in Hin. by apply not_elem_of_nil in Hin.
  - intros Hall. induction t as [|r t IH]; [done|].
    rewrite filter_cons_False by (apply Hall; left).
    apply IH. intros r' Hr'. apply Hall. by right.
Qed.

Lemma hits_cons patch t r rest :
  hits patch t = r :: rest → r ∈ t ∧ PipelineRaw.ID r = PipelinePatch.ID patch.
Proof.
  intros Hh.
  assert (r ∈ hits patch t) as Hin by (rewrite Hh; left).
  unfold hits in Hin. apply list_elem_of_filter in Hin as [? ?]. done.
Qed.

(** The UPDATE built by [patchPipeline] rewrites exactly the rows carrying
    the patch ID and returns them. *)
Lemma exec_update_patch clock patch t :
  exec_update clock (patch_args patch) (patch_set patch)
    (PEq id (Placeholder (length (patch_args patch)))) all_columns t
  = Some (patched clock patch <$> t,
          (λ r, project all_columns (patched clock patch r)) <$> hits patch t).
Proof.
  unfold hits.
  induction t as [|r t IH]; [reflexivity|].
  rewrite filter_cons, fmap_cons.
  cbn [exec_update]. rewrite IH; clear IH.
  case_decide as Hd.
  - rewrite fmap_cons, !patched_hit by done.
    destruct patch as [pid up [s|]], r as [i cr ct u ut nm st]; simplify_eq/=.
    all: by rewrite bool_decide_eq_true_2.
  - rewrite patched_miss by done.
    destruct patch as [pid up [s|]], r as [i cr ct u ut nm st]; simplify_eq/=.
    all: rewrite bool_decide_eq_false_2 by congruence; done.
Qed.

(** A SELECT returns the rows its WHERE clause accepts, in store order. *)
Lemma exec_select_filter args where_ (f : PipelineRaw → bool) t :
  (∀ r, eval_where args where_ r = Some (f r)) →
  exec_select args all_columns where_ t = Some (project all_columns <$> filter f t).
Proof.
  intros Hf. induction t as [|r t IH]; [reflexivity|].
  cbn [exec_select]. rewrite Hf, IH, filter_cons. cbn.
  destruct (f r); reflexivity.
Qed.

(** [Scan] reads back a row projected on all columns. *)
Lemma Scan_project r rest e w :
  f_scan (faults w) (project all_columns r) = None →
  Scan (mkRows (Some (project all_columns r)) rest e) w = (Ok r, w).
Proof. intros H. unfold Scan. cbn [current]. rewrite H. by destruct r. Qed.

Lemma scan_rows_project FormatError l cur e acc w :
  (∀ cells, f_scan (faults w) cells = None) →
  scan_rows FormatError (project all_columns <$> l)
    (mkRows cur (project all_columns <$> l) e) acc w = (Ok (acc ++ l), w).
Proof.
  intros Hs. revert cur acc. induction l as [|r l IH]; intros cur acc.
  - cbn. by rewrite app_nil_r.
  - rewrite fmap_cons. cbn [scan_rows Next pending lasterr].
    unfold mbind, M_bind, wrap_err.
    rewrite Scan_project by apply Hs. rewrite IH. by rewrite <- app_assoc.
Qed.

(** A cursor that does not break before its first row delivers the first
    row of a non-empty result. *)
Lemma open_cursor_first F r rows :
  cursor_breaks_first F = None →
  ∃ rest, Next (open_cursor F (r :: rows)) = (true, mkRows (Some r) rest (f_rows F)).
Proof.
  unfold cursor_breaks_first, open_cursor, Next. intros H.
  destruct (f_rows F); [|by eexists].
  destruct (f_rows_after F); [discriminate H|]. by eexists.
Qed.

(** A cursor that breaks before its first row, or runs over an empty
    result, delivers nothing. *)
Lemma open_cursor_broken F rows e :
  cursor_breaks_first F = Some e →
  Next (open_cursor F rows) = (false, mkRows None [] (Some e)).
Proof.
  unfold cursor_breaks_first, open_cursor, Next. intros H.
  destruct (f_rows F); [|discriminate H].
  destruct (f_rows_after F); [|discriminate H]. by simplify_eq/=.
Qed.

Lemma open_cursor_empty F :
  Next (open_cursor F []) = (false, mkRows None [] (f_rows F)).
Proof. unfold open_cursor, Next. destruct (f_rows F); [|done]. by rewrite take_nil. Qed.

Lemma store_ok_cursor w : query_ok w → cursor_breaks_first (faults w) = None.
Proof. intros (_ & _ & _ & Hr). unfold cursor_breaks_first. by rewrite Hr. Qed.

(** ** The operations as decision trees over the faults *)

Lemma CreatePipeline_eq FormatError create w :
  CreatePipeline FormatError create w =
  let F := faults w in
  match f_begin F with
  | Some e => (Err (FormatError e), emit (EvBeginTx false) w)
  | None =>
    let w1 := emit (EvBeginTx true) (set_txn (Some (table w)) w) in
    match f_query F with
    | Some e =>
        (Err (FormatError e),
         emit EvRollback (set_txn None (emit (EvQuery insert_stmt (insert_args create) false) w1)))
    | None =>
      let row := created_row create w in
      let t' := table w ++ [row] in
      let w2 := emit (EvQuery insert_stmt (insert_args create) true)
                  (set_next_id (next_id w + 1) (set_txn (Some t') w1)) in
      match cursor_breaks_first F with
      | Some e => (Err (FormatError e), emit EvRollback (set_txn None w2))
      | None =>
        match f_scan F (project all_columns row) with
        | Some e => (Err (FormatError e), emit EvRollback (set_txn None w2))
        | None =>
          match f_commit F with
          | Some e =>
              (Err (FormatError e), emit EvRollback (emit (EvCommit false) (set_txn None w2)))
          | None =>
            let w3 := emit (EvCommit true) (set_txn None (set_table t' w2)) in
            match f_upsert_cache F (next_id w) with
            | Some e =>
                (Err e, emit EvRollback (emit (EvUpsertCache (next_id w) row false) w3))
            | None =>
                (Ok row,
                 emit EvRollback
                   (emit (EvUpsertCache (next_id w) row true)
                      (set_cache (<[next_id w := row]> (cache w)) w3)))
            end
          end
        end
      end
    end
  end.
Proof.
  destruct w as [t tx nid clk c [fb fq fs fr fra fc ffc fuc] lg].
  unfold_service; unfold Scan, cursor_breaks_first; cbn.
  destruct fb; [reflexivity|]. cbn.
  destruct fq; [reflexivity|]. cbn.
  destruct fr; [destruct fra; [reflexivity|]|]; cbn.
  all: destruct (fs _); [reflexivity|]; cbn.
  all: destruct fc; [reflexivity|]; cbn.
  all: destruct (fuc nid); reflexivity.
Qed.

Lemma patchPipeline_eq FormatError patch :
  patchPipeline FormatError patch =
  (row ← wrap_err FormatError (QueryContext (patch_stmt patch) (patch_args patch));
   let '(more, row) := Next row in
   if more : bool then
     pipelineRaw ← wrap_err FormatError (Scan row);
     mret pipelineRaw
   else mthrow (M := M) (not_found_error patch)).
Proof. destruct patch as [pid up [s|]]; reflexivity. Qed.

Lemma PatchPipeline_eq FormatError patch w :
  PatchPipeline FormatError patch w =
  let F := faults w in
  match f_begin F with
  | Some e => (Err (FormatError e), emit (EvBeginTx false) w)
  | None =>
    let w1 := emit (EvBeginTx true) (set_txn (Some (table w)) w) in
    match f_query F with
    | Some e =>
        (Err (FormatError (FormatError e)),
         emit EvRollback
           (set_txn None (emit (EvQuery (patch_stmt patch) (patch_args patch) false) w1)))
    | None =>
      let t' := patched (clock w) patch <$> table w in
      let w2 := emit (EvQuery (patch_stmt patch) (patch_args patch) true)
                  (set_txn (Some t') w1) in
      let not_found :=
        (Err (FormatError (not_found_error patch)), emit EvRollback (set_txn None w2)) in
      match cursor_breaks_first F with
      | Some _ => not_found
      | None =>
        match hits patch (table w) with
        | [] => not_found
        | r :: _ =>
          let p := patched (clock w) patch r in
          match f_scan F (project all_columns p) with
          | Some e => (Err (FormatError (FormatError e)), emit EvRollback (set_txn None w2))
          | None =>
            match f_commit F with
            | Some e =>
                (Err (FormatError e), emit EvRollback (emit (EvCommit false) (set_txn None w2)))
            | None =>
              let w3 := emit (EvCommit true) (set_txn None (set_table t' w2)) in
              match f_upsert_cache F (PipelineRaw.ID p) with
              | Some e =>
                  (Err e,
                   emit EvRollback (emit (EvUpsertCache (PipelineRaw.ID p) p false) w3))
              | None =>
                  (Ok p,
                   emit EvRollback
                     (emit (EvUpsertCache (PipelineRaw.ID p) p true)
                        (set_cache (<[PipelineRaw.ID p := p]> (cache w)) w3)))
              end
            end
          end
        end
      end
    end
  end.
Proof.
  unfold PatchPipeline. rewrite patchPipeline_eq.
  destruct w as [t tx nid clk c [fb fq fs fr fra fc ffc fuc] lg].
  unfold_service. unfold cursor_breaks_first. world_step.
  destruct fb; [reflexivity|]. world_step.
  destruct fq; [reflexivity|]. world_step.
  unfold patch_stmt at 1, exec. rewrite exec_update_patch.
  cbn [mbind option_bind]. world_step.
  destruct fr as [e|]; [destruct fra as [|k]; [reflexivity|]|]; cbn [Nat.eqb].
  all: destruct (hits _ t) as [|r rest]; [reflexivity|].
  all: rewrite fmap_cons; cbn [take firstn pending current lasterr]; unfold Scan; world_step;
    cbn [current].
  all: destruct (fs _); [reflexivity|].
  all: destruct (patched clk patch r) as [i cr ct u ut nm st]; cbn.
  all: destruct fc; [reflexivity|]; cbn.
  all: destruct (fuc i); reflexivity.
Qed.

(** On a read round trip without faults [findPipelineList] returns the
    rows matching the filter. *)
Lemma findPipelineList_run FormatError find w t :
  txn w = Some t →
  f_query (faults w) = None →
  (∀ cells, f_scan (faults w) cells = None) →
  f_rows (faults w) = None →
  ∃ q args,
    findPipelineList FormatError find w =
    (Ok (filter (pipeline_matches find) t), emit (EvQuery q args true) (set_txn (Some t) w)).
Proof.
  intros Ht Hq Hs Hr.
  assert (∀ q args rows,
    exec (next_id w) (clock w) q args t = Some (t, false, project all_columns <$> rows) →
    (rows0 ← wrap_err FormatError (QueryContext q args);
     pipelineRawList ← scan_rows FormatError (pending rows0) rows0 [];
     wrap_err FormatError (RowsErr rows0);;
     mret pipelineRawList) w = (Ok rows, emit (EvQuery q args true) (set_txn (Some t) w))) as Hrun.
  { intros q args rows Hex.
    unfold mbind, M_bind, wrap_err, QueryContext at 1.
    rewrite Hq, Ht, Hex. unfold open_cursor. rewrite Hr. cbn [pending].
    rewrite scan_rows_project by (destruct w; apply Hs).
    unfold RowsErr. by destruct w. }
  unfold findPipelineList.
  destruct find as [[i|] [s|]]; cbn [PipelineFind.ID PipelineFind.Status app length Nat.add].
  all: do 2 eexists; apply Hrun.
  all: unfold exec; erewrite exec_select_filter; [reflexivity|].
  all: intros [ri cr ct u ut nm st]; unfold pipeline_matches; cbn.
  all: rewrite ?andb_true_r; repeat f_equal; apply bool_decide_ext; naive_solver.
Qed.

(** What one Patch does to the log and to the committed table. *)
Lemma PatchPipeline_frame FormatError patch w :
  let out := PatchPipeline FormatError patch w in
  ∃ new, log out.2 = log w ++ new ∧
    (∀ q args ok, EvQuery q args ok ∈ new → q = patch_stmt patch ∧ args = patch_args patch) ∧
    (((EvCommit true ∉ new) ∧ table out.2 = table w) ∨
     table out.2 = (patched (clock w) patch <$> table w)).
Proof.
  cbv zeta. rewrite PatchPipeline_eq. cbv zeta.
  repeat case_match; world_step; rewrite <- ?app_assoc.
  all: eexists; split; [reflexivity|].
  all: split; [intros q args ok Hin; elem_cases Hin; by simplify_eq|].
  all: try (by right).
  all: left; split; [|reflexivity].
  all: intros Hin; elem_cases Hin.
Qed.

(** What one Patch is sure to do: the UPDATE is sent as soon as the
    transaction opens, and on a round trip without store faults a row
    carrying the ID gets the patch committed. *)
Lemma PatchPipeline_issues FormatError patch w new :
  log (PatchPipeline FormatError patch w).2 = log w ++ new →
  (f_begin (faults w) = None →
     ∃ ok, EvQuery (patch_stmt patch) (patch_args patch) ok ∈ new ∧
           (ok = true ↔ f_query (faults w) = None)) ∧
  (store_ok w → (∃ r, r ∈ table w ∧ PipelineRaw.ID r = PipelinePatch.ID patch) →
     EvCommit true ∈ new ∧
     table (PatchPipeline FormatError patch w).2 = (patched (clock w) patch <$> table w)).
Proof.
  rewrite PatchPipeline_eq. cbv zeta. intros Hlog. split.
  - intros Hb. rewrite Hb in Hlog.
    destruct (f_query (faults w)) eqn:Hq.
    + revert Hlog. world_step. rewrite <- ?app_assoc. intros Hlog.
      apply app_inv_head in Hlog. subst new. exists false. split; [set_solver | done].
    + exists true. split; [|done].
      revert Hlog. repeat case_match; world_step; rewrite <- ?app_assoc.
      all: intros Hlog; apply app_inv_head in Hlog; subst new; set_solver.
  - intros [Hqok Hc] (r & Hr & Hid).
    pose proof (store_ok_cursor w Hqok) as Hcur.
    destruct Hqok as (Hb & Hq & Hs & _).
    rewrite Hb, Hq, Hcur in Hlog |- *.
    destruct (hits patch (table w)) as [|r0 rest] eqn:Hh.
    { by destruct (proj1 (hits_nil patch (table w)) Hh r Hr). }
    rewrite Hs, Hc in Hlog |- *.
    revert Hlog. case_match; world_step; rewrite <- ?app_assoc.
    all: intros Hlog; apply app_inv_head in Hlog; subst new.
    all: split; [set_solver | reflexivity].
Qed.

(** A failed cache write after a successful commit, in general. *)
Lemma upsert_failure_keeps_commit FormatError create patch w e r rest :
  store_ok w →
  (f_upsert_cache (faults w) (next_id w) = Some e →
     (CreatePipeline FormatError create w).1 = Err e ∧
     table (CreatePipeline FormatError create w).2 = table w ++ [created_row create w]) ∧
  (hits patch (table w) = r :: rest →
   f_upsert_cache (faults w) (PipelinePatch.ID patch) = Some e →
     (PatchPipeline FormatError patch w).1 = Err e ∧
     table (PatchPipeline FormatError patch w).2 = (patched (clock w) patch <$> table w)).
Proof.
  intros [Hqok Hc]. pose proof (store_ok_cursor w Hqok) as Hcur.
  destruct Hqok as (Hb & Hq & Hs & _). split.
  - intros Hu. rewrite CreatePipeline_eq. cbv zeta. by rewrite Hb, Hq, Hcur, Hs, Hc, Hu.
  - intros Hh Hu. destruct (hits_cons _ _ _ _ Hh) as [_ Hid].
    rewrite PatchPipeline_eq. cbv zeta. rewrite Hb, Hq, Hcur, Hh, Hs, Hc.
    replace (PipelineRaw.ID (patched (clock w) patch r)) with (PipelinePatch.ID patch)
      by (rewrite patched_hit by done; by destruct r).
    by rewrite Hu.
Qed.

(** ** Reasoning on event logs *)

Lemma upserts_follow_commit_sound committed evs :
  upserts_follow_commit committed evs = true →
  ∀ pre key value ok post,
    evs = pre ++ EvUpsertCache key value ok :: post →
    committed = true ∨ EvCommit true ∈ pre.
Proof.
  revert committed. induction evs as [|e evs IH]; intros committed Hc pre key value ok post Heq.
  - by destruct pre.
  - destruct pre as [|e' pre]; simplify_eq/=.
    + left. by destruct committed.
    + destruct e' as [| | [|] | | |]; cbn in Hc;
        try (destruct (IH _ Hc _ _ _ _ _ eq_refl) as [?|?]; [by left | right; by apply elem_of_cons; right]).
      * right. apply elem_of_cons. by left.
      * apply andb_true_iff in Hc as [-> _]. by left.
Qed.

Lemma check_commit_precedes_upserts evs :
  upserts_follow_commit false evs = true → commit_precedes_upserts evs.
Proof.
  intros Hc pre key value ok post Heq.
  by destruct (upserts_follow_commit_sound _ _ Hc _ _ _ _ _ Heq).
Qed.

Lemma no_upsert_elem evs key value ok :
  forallb (λ e, negb (is_upsert e)) evs = true → EvUpsertCache key value ok ∉ evs.
Proof.
  intros Hf Hin. apply list_elem_of_In in Hin.
  rewrite forallb_forall in Hf. by apply Hf in Hin.
Qed.

Section ExtendsLog.
Context {A B : Type}.

Lemma extends_ret (a : A) : extends_log (mret a).
Proof. intros w. exists []. by rewrite app_nil_r. Qed.

Lemma extends_throw (e : error) : extends_log (mthrow (M := M) (A := A) e).
Proof. intros w. exists []. by rewrite app_nil_r. Qed.

Lemma extends_bind (m : M A) (f : A → M B) :
  extends_log m → (∀ a, extends_log (f a)) → extends_log (m ≫= f).
Proof.
  intros Hm Hf w. unfold mbind, M_bind.
  destruct (Hm w) as [new1 H1]. destruct (m w) as [[a|e] w1]; cbn in *.
  - destruct (Hf a w1) as [new2 H2]. exists (new1 ++ new2).
    by rewrite H2, H1, app_assoc.
  - by exists new1.
Qed.

Lemma extends_wrap_err (wrap : error → error) (m : M A) :
  extends_log m → extends_log (wrap_err wrap m).
Proof.
  intros Hm w. unfold wrap_err. destruct (Hm w) as [new H].
  destruct (m w) as [[a|e] w1]; by exists new.
Qed.

Lemma extends_defer (d : M B) (body : M A) :
  extends_log d → extends_log body → extends_log (defer d body).
Proof.
  intros Hd Hb w. unfold defer.
  destruct (Hb w) as [new1 H1]. destruct (body w) as [r w1]; cbn in *.
  destruct (Hd w1) as [new2 H2]. exists (new1 ++ new2).
  by rewrite H2, H1, app_assoc.
Qed.
End ExtendsLog.

Lemma extends_BeginTx : extends_log BeginTx.
Proof. intros w. unfold BeginTx. case_match; by eexists. Qed.

Lemma extends_QueryContext q args : extends_log (QueryContext q args).
Proof.
  intros w. unfold QueryContext. repeat case_match; try (by eexists).
  all: open_world w; by eexists.
Qed.

Lemma extends_Rollback : extends_log Rollback.
Proof. intros w. unfold Rollback. case_match; by eexists. Qed.

Lemma extends_UpsertCache key value : extends_log (UpsertCache key value).
Proof. intros w. unfold UpsertCache. case_match; by eexists. Qed.

Lemma extends_Scan rows : extends_log (Scan rows).
Proof.
  intros w. exists []. rewrite app_nil_r. unfold Scan.
  repeat case_match; reflexivity.
Qed.

Lemma extends_RowsErr rows : extends_log (RowsErr rows).
Proof. intros w. exists []. rewrite app_nil_r. unfold RowsErr. by case_match. Qed.

Create HintDb extends.
#[local] Hint Resolve extends_ret extends_throw extends_bind extends_wrap_err extends_defer
  extends_BeginTx extends_QueryContext extends_Rollback extends_UpsertCache extends_Scan
  extends_RowsErr : extends.

Lemma extends_scan_rows FormatError todo rows acc :
  extends_log (scan_rows FormatError todo rows acc).
Proof.
  revert rows acc. induction todo as [|r todo IH]; intros rows acc; cbn [scan_rows];
    [|destruct (Next rows)]; auto with extends.
Qed.
#[local] Hint Resolve extends_scan_rows : extends.

Lemma extends_findPipelineList FormatError find :
  extends_log (findPipelineList FormatError find).
Proof.
  unfold findPipelineList.
  destruct (PipelineFind.ID find), (PipelineFind.Status find); auto 10 with extends.
Qed.
#[local] Hint Resolve extends_findPipelineList : extends.

(** ** Results *)




(** C2. In every run of [CreatePipeline] and of [PatchPipeline], whatever
    the collaborators answer, each cache write the run makes is preceded
    in the run by a successful commit, and it writes the entity the
    committed table now holds under that entity's ID. Hence a run with no
    successful commit makes no cache write and leaves the cache as it
    was. *)
Theorem cache_upsert_only_after_commit FormatError create patch w :
  (∃ new, log (CreatePipeline FormatError create w).2 = log w ++ new ∧
     commit_precedes_upserts new ∧
     (∀ key value ok, EvUpsertCache key value ok ∈ new →
        key = PipelineRaw.ID value ∧ value ∈ table (CreatePipeline FormatError create w).2) ∧
     (EvCommit true ∉ new →
        (∀ key value ok, EvUpsertCache key value ok ∉ new) ∧
        cache (CreatePipeline FormatError create w).2 = cache w)) ∧
  (∃ new, log (PatchPipeline FormatError patch w).2 = log w ++ new ∧
     commit_precedes_upserts new ∧
     (∀ key value ok, EvUpsertCache key value ok ∈ new →
        key = PipelineRaw.ID value ∧ value ∈ table (PatchPipeline FormatError patch w).2) ∧
     (EvCommit true ∉ new →
        (∀ key value ok, EvUpsertCache key value ok ∉ new) ∧
        cache (PatchPipeline FormatError patch w).2 = cache w)).
Proof.
  split.
  - rewrite CreatePipeline_eq. cbv zeta.
    repeat case_match; world_step; rewrite <- ?app_assoc.
    all: eexists; split; [reflexivity|].
    all: split; [by apply check_commit_precedes_upserts|].
    all: split; [intros key value ok Hin; elem_cases Hin; simplify_eq;
                 split; try reflexivity; apply elem_of_app; right; left|].
    all: intros Hnc; try (exfalso; apply Hnc; set_solver).
    all: split; [intros; by apply no_upsert_elem | reflexivity].
  - rewrite PatchPipeline_eq. cbv zeta.
    repeat case_match; world_step; rewrite <- ?app_assoc.
    all: eexists; split; [reflexivity|].
    all: split; [by apply check_commit_precedes_upserts|].
    all: split; [intros key value ok Hin; elem_cases Hin; simplify_eq;
                 split; try reflexivity; apply list_elem_of_fmap_2; by eapply hits_cons|].
    all: intros Hnc; try (exfalso; apply Hnc; set_solver).
    all: split; [intros; by apply no_upsert_elem | reflexivity].
Qed.

(** C3. Whenever [CreatePipeline] returns an entity, that entity is the
    single row appended to the committed table, its [creator_id] and
    [updater_id] are both the requester's [CreatorID] and its status is
    [OPEN]; on no outcome does the table gain anything but one such row;
    and when no store call and no cache write fails, an entity is
    returned. *)
Theorem create_inserts_one_open_row FormatError create w :
  let out := CreatePipeline FormatError create w in
  (∀ p, out.1 = Ok p →
     table out.2 = table w ++ [p] ∧
     PipelineRaw.CreatorID p = PipelineCreate.CreatorID create ∧
     PipelineRaw.UpdaterID p = PipelineCreate.CreatorID create ∧
     PipelineRaw.Name p = PipelineCreate.Name create ∧
     PipelineRaw.Status p = PipelineOpen) ∧
  (table out.2 = table w ∨
   ∃ row, table out.2 = table w ++ [row] ∧
     PipelineRaw.CreatorID row = PipelineCreate.CreatorID create ∧
     PipelineRaw.UpdaterID row = PipelineCreate.CreatorID create ∧
     PipelineRaw.Status row = PipelineOpen) ∧
  (store_ok w → f_upsert_cache (faults w) (next_id w) = None →
     ∃ p, out.1 = Ok p ∧ cache out.2 !! PipelineRaw.ID p = Some p).
Proof.
  cbv zeta. rewrite CreatePipeline_eq. cbv zeta. split_and!.
  - intros p. repeat case_match; world_step; intros Hp; simplify_eq. done.
  - repeat case_match; world_step; try (by left).
    all: right; eexists; split; [reflexivity|done].
  - intros [Hqok Hc] Hu. rewrite (store_ok_cursor w Hqok).
    destruct Hqok as (Hb & Hq & Hs & _). rewrite Hb, Hq, Hs, Hc, Hu. world_step.
    eexists; split; [reflexivity|]. cbn. apply lookup_insert_eq.
Qed.

(** C3 at the first pipeline created in an empty store. *)
Lemma create_inserts_one_open_row_witness :
  store_ok empty_world ∧
  ∃ p, (CreatePipeline same_error release_42 empty_world).1 = Ok p ∧
       PipelineRaw.Status p = PipelineOpen ∧
       table (CreatePipeline same_error release_42 empty_world).2 = [p].
Proof.
  assert (store_ok empty_world) as Hok by (repeat split).
  split; [exact Hok|].
  destruct (create_inserts_one_open_row same_error release_42 empty_world) as (Hret & _ & Hrun).
  destruct (Hrun Hok eq_refl) as (p & Hp & _).
  exists p. destruct (Hret p Hp) as (Ht & _ & _ & _ & Hst). by repeat split.
Defined.

(** C4. When the transaction opens, the UPDATE runs and no stored row
    carries the patch ID, [PatchPipeline] returns the [NotFound] error
    whose text names the pipeline and the ID, passed through
    [FormatError]; the cache and the table are left as they were and no
    cache write is attempted. *)
Theorem patch_missing_id_not_found FormatError patch w :
  f_begin (faults w) = None →
  f_query (faults w) = None →
  (∀ r, r ∈ table w → PipelineRaw.ID r ≠ PipelinePatch.ID patch) →
  let out := PatchPipeline FormatError patch w in
  out.1 = Err (FormatError
                 (CommonError common.NotFound
                    ("pipeline ID not found: " +:+ pretty (PipelinePatch.ID patch)))) ∧
  cache out.2 = cache w ∧
  table out.2 = table w ∧
  ∃ new, log out.2 = log w ++ new ∧ ∀ key value ok, EvUpsertCache key value ok ∉ new.
Proof.
  intros Hb Hq Hnone. apply hits_nil in Hnone. cbv zeta.
  rewrite PatchPipeline_eq. cbv zeta. rewrite Hb, Hq, Hnone.
  destruct (cursor_breaks_first (faults w)); world_step.
  all: split_and!; try done.
  all: rewrite <- !app_assoc; eexists; split; [reflexivity|].
  all: intros; by apply no_upsert_elem.
Qed.

(** C4 at a patch for ID 5 in a store holding only ID 1. *)
Lemma patch_missing_id_not_found_witness :
  (∀ r, r ∈ table done_world → PipelineRaw.ID r ≠ PipelinePatch.ID patch_absent) ∧
  (PatchPipeline same_error patch_absent done_world).1
    = Err (CommonError common.NotFound "pipeline ID not found: 5") ∧
  cache (PatchPipeline same_error patch_absent done_world).2 = cache done_world.
Proof.
  assert (∀ r, r ∈ table done_world → PipelineRaw.ID r ≠ PipelinePatch.ID patch_absent) as Hnone.
  { intros r Hr. apply list_elem_of_singleton in Hr. by subst. }
  split; [exact Hnone|].
  destruct (patch_missing_id_not_found same_error patch_absent done_world eq_refl eq_refl Hnone)
    as (Hres & Hcache & _).
  split; [exact Hres | exact Hcache].
Defined.

(** C5. When [FindPipeline] goes to the store (no ID in the request, or
    nothing cached under it) and the read round trip succeeds, the rows
    matching the filter decide the result: none gives [(nil, nil)];
    exactly one gives that entity, once it has been written to the cache
    (the error of the cache write otherwise); more than one gives a
    [Conflict] error reporting the number found and the expected 1. The
    table is never changed. *)
Theorem find_result_by_row_count FormatError fmt_find find w :
  cache_miss find w →
  query_ok w →
  let rows := filter (pipeline_matches find) (table w) in
  let out := FindPipeline FormatError fmt_find find w in
  (rows = [] → out.1 = Ok None) ∧
  (∀ p, rows = [p] →
     out.1 = match f_upsert_cache (faults w) (PipelineRaw.ID p) with
             | None => Ok (Some p)
             | Some e => Err e
             end) ∧
  ((1 < length rows)%nat →
     out.1 = Err (CommonError common.Conflict
                    ("found " +:+ pretty (length rows) +:+ " pipelines with filter "
                     +:+ fmt_find find +:+ ", expect 1"))) ∧
  table out.2 = table w.
Proof.
  intros Hmiss (Hb & Hq & Hs & Hr). cbv zeta.
  assert (∃ w0, (match PipelineFind.ID find with
                 | Some key => FindCache key
                 | None => mret (M := M) None
                 end) w = (Ok None, w0) ∧
                table w0 = table w ∧ faults w0 = faults w) as (w0 & Hprobe & Ht0 & Hf0).
  { unfold cache_miss in Hmiss. destruct (PipelineFind.ID find) as [key|].
    - destruct Hmiss as [Hfc Hnone]. unfold FindCache. rewrite Hfc, Hnone.
      eexists; split; [reflexivity|]. by destruct w.
    - by exists w. }
  destruct (FindPipeline FormatError fmt_find find w) as [res w'] eqn:Hout.
  unfold FindPipeline in Hout. unfold mbind at 1, M_bind at 1 in Hout.
  rewrite Hprobe in Hout.
  unfold mbind at 1, M_bind at 1, wrap_err at 1, BeginTx in Hout. rewrite Hf0, Hb in Hout.
  set (w1 := emit (EvBeginTx true) (set_txn (Some (table w0)) w0)) in Hout.
  destruct (findPipelineList_run FormatError find w1 (table w))
    as (q & args & Hrun);
    [subst w1; world_step; congruence.. |].
  unfold defer, mbind, M_bind in Hout. rewrite Hrun in Hout.
  assert (faults w1 = faults w ∧ table w1 = table w) as [Hf1 Ht1] by done.
  clearbody w1. clear Hrun Hprobe.
  destruct (filter (pipeline_matches find) (table w)) as [|p [|p' rest]] eqn:Hrows.
  - cbn [length] in Hout. rewrite bool_decide_eq_true_2 in Hout by done.
    unfold mret, M_ret, Rollback in Hout. cbn in Hout. simplify_eq. cbn.
    split_and!; [done | done | lia | done].
  - cbn [length bool_decide lookup list_lookup] in Hout.
    rewrite bool_decide_eq_false_2 in Hout by done.
    rewrite bool_decide_eq_false_2 in Hout by lia.
    unfold UpsertCache, mret, M_ret, Rollback in Hout. cbn in Hout. rewrite Hf1 in Hout.
    cbn [length].
    destruct (f_upsert_cache (faults w) (PipelineRaw.ID p)) eqn:Hu; simplify_eq; cbn.
    all: split_and!; [done | | lia | done].
    all: intros p0 [= <-]; by rewrite Hu.
  - rewrite bool_decide_eq_false_2 in Hout by done.
    rewrite bool_decide_eq_true_2 in Hout by (cbn; lia).
    unfold mthrow, M_throw, Rollback in Hout. cbn in Hout. simplify_eq. cbn.
    split_and!; done.
Qed.

(** C5 at a status filter matched by two rows. *)
Lemma find_result_by_row_count_witness :
  cache_miss find_open two_open_world ∧
  query_ok two_open_world ∧
  (FindPipeline same_error plain_find find_open two_open_world).1
    = Err (CommonError common.Conflict "found 2 pipelines with filter &{}, expect 1").
Proof.
  assert (cache_miss find_open two_open_world) as Hmiss by exact I.
  assert (query_ok two_open_world) as Hok by (repeat split).
  split; [exact Hmiss|]. split; [exact Hok|].
  destruct (find_result_by_row_count same_error plain_find find_open two_open_world Hmiss Hok)
    as (_ & _ & Hmany & _).
  apply Hmany. vm_compute. lia.
Defined.

(** C6. For a request with its ID set, the first thing [FindPipeline] does
    is probe the cache under that ID; on a hit it returns the cached
    entity and the world is unchanged but for the record of that probe:
    no transaction is opened and no query is issued. *)
Theorem find_by_id_probes_cache_first FormatError fmt_find find w key :
  PipelineFind.ID find = Some key →
  let out := FindPipeline FormatError fmt_find find w in
  (∃ hit rest, log out.2 = log w ++ EvFindCache key hit :: rest) ∧
  (∀ p, f_find_cache (faults w) = None → cache w !! key = Some p →
     out = (Ok (Some p), emit (EvFindCache key true) w)).
Proof.
  intros Hid. cbv zeta.
  assert (∀ p, f_find_cache (faults w) = None → cache w !! key = Some p →
            FindPipeline FormatError fmt_find find w
            = (Ok (Some p), emit (EvFindCache key true) w)) as Hhit.
  { intros p Hfc Hp. unfold FindPipeline. rewrite Hid.
    unfold mbind, M_bind, FindCache. rewrite Hfc, Hp.
    rewrite bool_decide_eq_true_2 by done. reflexivity. }
  split; [|exact Hhit].
  destruct (f_find_cache (faults w)) as [e|] eqn:Hfc.
  - unfold FindPipeline. rewrite Hid. unfold mbind, M_bind, FindCache. rewrite Hfc.
    by exists false, [].
  - destruct (cache w !! key) as [p|] eqn:Hp.
    + rewrite (Hhit p) by done. by exists true, [].
    + unfold FindPipeline. rewrite Hid.
      unfold mbind at 1, M_bind at 1, FindCache. rewrite Hfc, Hp.
      rewrite bool_decide_eq_false_2 by (by intros [? ?]).
      match goal with
      | |- ∃ _ _, log (?m ?w0).2 = _ =>
          assert (extends_log m) as Hext
      end.
      { apply extends_bind; [auto with extends|]. intros _.
        apply extends_defer; [auto with extends|].
        apply extends_bind; [auto with extends|]. intros l.
        repeat case_match; auto 10 with extends. }
      destruct (Hext (emit (EvFindCache key false) w)) as [new Hnew].
      exists false, new. rewrite Hnew. cbn. by rewrite <- app_assoc.
Qed.

(** C6 at a lookup of the pipeline cached by its creation. *)
Lemma find_by_id_probes_cache_first_witness :
  cache created_world !! 1 = Some (PipelineRaw.mk 1 7 100 7 100 "release-42" PipelineOpen) ∧
  FindPipeline same_error plain_find find_1_done created_world
    = (Ok (Some (PipelineRaw.mk 1 7 100 7 100 "release-42" PipelineOpen)),
       emit (EvFindCache 1 true) created_world).
Proof.
  assert (cache created_world !! 1
          = Some (PipelineRaw.mk 1 7 100 7 100 "release-42" PipelineOpen)) as Hc
    by (vm_compute; reflexivity).
  split; [exact Hc|].
  destruct (find_by_id_probes_cache_first same_error plain_find find_1_done created_world 1 eq_refl)
    as [_ Hhit].
  apply Hhit; [reflexivity | exact Hc].
Defined.

(** C7. [PatchPipeline] sends its UPDATE as soon as the transaction opens,
    and that UPDATE is the only statement it issues: its SET list is
    [updater_id], unconditionally, followed by [status] exactly when the
    patch carries one, keyed on the patch ID. On a round trip without store
    faults a row carrying the ID gets the UPDATE committed. In the
    committed table every row keeps its [id], [creator_id], [created_ts]
    and [name]; it keeps its [status] when the patch carries none; rows
    with another ID are left untouched; and the rows with the patch ID
    carry the patch's [UpdaterID] and requested status once the commit
    succeeds, hence whenever no store call fails. *)
Theorem patch_update_frame FormatError patch w :
  let out := PatchPipeline FormatError patch w in
  let set_list := (updater_id, Placeholder 1) ::
                  match PipelinePatch.Status patch with
                  | Some _ => [(status, Placeholder 2)]
                  | None => []
                  end in
  let arg_list := VInt (PipelinePatch.UpdaterID patch) ::
                  match PipelinePatch.Status patch with
                  | Some v => [VText v]
                  | None => []
                  end ++ [VInt (PipelinePatch.ID patch)] in
  ∃ new, log out.2 = log w ++ new ∧
    (∀ q args ok, EvQuery q args ok ∈ new →
       q = Update set_list (PEq id (Placeholder (length args))) all_columns ∧
       args = arg_list) ∧
    (f_begin (faults w) = None →
       ∃ ok, EvQuery (Update set_list (PEq id (Placeholder (length arg_list))) all_columns)
               arg_list ok ∈ new ∧
             (ok = true ↔ f_query (faults w) = None)) ∧
    (store_ok w → (∃ r, r ∈ table w ∧ PipelineRaw.ID r = PipelinePatch.ID patch) →
       EvCommit true ∈ new) ∧
    length (table out.2) = length (table w) ∧
    ∀ i r, table w !! i = Some r →
      ∃ r', table out.2 !! i = Some r' ∧
        PipelineRaw.ID r' = PipelineRaw.ID r ∧
        PipelineRaw.CreatorID r' = PipelineRaw.CreatorID r ∧
        PipelineRaw.CreatedTs r' = PipelineRaw.CreatedTs r ∧
        PipelineRaw.Name r' = PipelineRaw.Name r ∧
        (PipelinePatch.Status patch = None → PipelineRaw.Status r' = PipelineRaw.Status r) ∧
        (PipelineRaw.ID r ≠ PipelinePatch.ID patch → r' = r) ∧
        (EvCommit true ∈ new ∨ store_ok w →
         PipelineRaw.ID r = PipelinePatch.ID patch →
           PipelineRaw.UpdaterID r' = PipelinePatch.UpdaterID patch ∧
           ∀ s, PipelinePatch.Status patch = Some s → PipelineRaw.Status r' = s).
Proof.
  cbv zeta.
  destruct (PatchPipeline_frame FormatError patch w) as (new & Hlog & Hq & Htab).
  destruct (PatchPipeline_issues FormatError patch w new Hlog) as [Hsent Hdone].
  exists new. split; [exact Hlog|]. split.
  { intros q args ok Hin. destruct (Hq _ _ _ Hin) as [-> ->]. split; reflexivity. }
  split; [exact Hsent|].
  split; [intros Hok Hex; by destruct (Hdone Hok Hex)|].
  destruct Htab as [[Hnc Htab]| Htab].
  - rewrite Htab. split; [reflexivity|]. intros i r Hr. exists r.
    split_and!; try done.
    intros [Hin | Hok] Hid; [done|].
    destruct (Hdone Hok) as [Hin _]; [|done].
    exists r. split; [|done]. by eapply list_elem_of_lookup_2.
  - rewrite Htab. split; [by rewrite length_fmap|].
    intros i r Hr. exists (patched (clock w) patch r).
    split; [by rewrite list_lookup_fmap, Hr|].
    destruct (patched_fields (clock w) patch r) as (?&?&?&?&?&?&?).
    split_and!; done.
Qed.

Lemma patch_update_frame_witness :
  store_ok done_world ∧
  table done_world = [PipelineRaw.mk 1 7 100 7 150 "release-42" PipelineDone] ∧
  ∃ new r',
    log (PatchPipeline same_error touch_1 done_world).2 = new ∧
    EvQuery (Update [(updater_id, Placeholder 1)] (PEq id (Placeholder 2)) all_columns)
      [VInt 8; VInt 1] true ∈ new ∧
    EvCommit true ∈ new ∧
    table (PatchPipeline same_error touch_1 done_world).2 = [r'] ∧
    PipelineRaw.UpdaterID r' = 8 ∧
    PipelineRaw.Status r' = PipelineDone ∧
    PipelineRaw.Name r' = "release-42".
Proof.
  assert (store_ok done_world) as Hok by (by repeat split).
  split; [exact Hok|]. split; [reflexivity|].
  destruct (patch_update_frame same_error touch_1 done_world)
    as (new & Hlog & _ & Hsent & Hcommit & Hlen & Hrows).
  destruct (Hsent eq_refl) as (ok & Hin & Hiff).
  destruct (Hrows 0%nat _ eq_refl) as (r' & Hr' & _ & _ & _ & Hname & Hst & _ & Hup).
  destruct (Hup (or_intror Hok) eq_refl) as [Hupd _].
  exists new, r'. split; [exact Hlog|].
  split; [by rewrite (proj2 Hiff eq_refl) in Hin|].
  split; [apply (Hcommit Hok); eexists; split; [left | reflexivity]|].
  split.
  { destruct (table (PatchPipeline same_error touch_1 done_world).2) as [|x [|y l]];
      [discriminate Hlen | | discriminate Hlen].
    by injection Hr' as ->. }
  split; [exact Hupd|]. split; [exact (Hst eq_refl) | exact Hname].
Defined.

(** C8. There is a run of [CreatePipeline], and one of [PatchPipeline], in
    which the commit succeeds, the following cache write fails, an error
    is returned, and the committed table has changed. So an error from
    Create or Patch does not tell that the store is unchanged. *)
Theorem error_return_after_commit :
  (∃ w create e,
     (CreatePipeline same_error create w).1 = Err e ∧
     EvCommit true ∈ log (CreatePipeline same_error create w).2 ∧
     (∃ key value, EvUpsertCache key value false ∈ log (CreatePipeline same_error create w).2) ∧
     (∃ row, table (CreatePipeline same_error create w).2 = table w ++ [row])) ∧
  (∃ w patch e,
     (PatchPipeline same_error patch w).1 = Err e ∧
     EvCommit true ∈ log (PatchPipeline same_error patch w).2 ∧
     (∃ key value, EvUpsertCache key value false ∈ log (PatchPipeline same_error patch w).2) ∧
     table (PatchPipeline same_error patch w).2 ≠ table w) ∧
  ¬ (∀ FormatError create w e,
       (CreatePipeline FormatError create w).1 = Err e →
       table (CreatePipeline FormatError create w).2 = table w) ∧
  ¬ (∀ FormatError patch w e,
       (PatchPipeline FormatError patch w).1 = Err e →
       table (PatchPipeline FormatError patch w).2 = table w).
Proof.
  split_and!.
  - exists (with_faults cache_down empty_world), release_42, (ExternalError "cache: write failed").
    split_and!; [reflexivity | vm_compute; set_solver | | eexists; reflexivity].
    exists 1, (PipelineRaw.mk 1 7 100 7 100 "release-42" PipelineOpen).
    vm_compute; set_solver.
  - exists (with_faults cache_down done_world), reopen, (ExternalError "cache: write failed").
    split_and!; [reflexivity | vm_compute; set_solver | | vm_compute; discriminate].
    exists 1, (PipelineRaw.mk 1 7 100 8 200 "release-42" PipelineOpen).
    vm_compute; set_solver.
  - intros Hall.
    specialize (Hall same_error release_42 (with_faults cache_down empty_world) _ eq_refl).
    vm_compute in Hall. discriminate Hall.
  - intros Hall.
    specialize (Hall same_error reopen (with_faults cache_down done_world) _ eq_refl).
    vm_compute in Hall. discriminate Hall.
Qed.

(** C9. On a cache hit under the requested ID, [FindPipeline] returns the
    cached entity whatever the [Status] field of the request says: the
    run is the same for every status filter. In particular there is a
    run that returns a pipeline whose status differs from the one asked
    for. *)
Theorem cache_hit_ignores_status_filter FormatError fmt_find :
  (∀ w key p status status',
     f_find_cache (faults w) = None →
     cache w !! key = Some p →
     (FindPipeline FormatError fmt_find (PipelineFind.mk (Some key) status) w).1 = Ok (Some p) ∧
     FindPipeline FormatError fmt_find (PipelineFind.mk (Some key) status) w
       = FindPipeline FormatError fmt_find (PipelineFind.mk (Some key) status') w) ∧
  (∃ w key wanted p,
     (FindPipeline FormatError fmt_find (PipelineFind.mk (Some key) (Some wanted)) w).1
       = Ok (Some p) ∧
     PipelineRaw.Status p ≠ wanted).
Proof.
  assert (∀ w key p status,
     f_find_cache (faults w) = None →
     cache w !! key = Some p →
     FindPipeline FormatError fmt_find (PipelineFind.mk (Some key) status) w
       = (Ok (Some p), emit (EvFindCache key true) w)) as Hhit.
  { intros w key p status Hfc Hp. unfold FindPipeline. cbn [PipelineFind.ID].
    unfold mbind, M_bind, FindCache. rewrite Hfc, Hp.
    by rewrite bool_decide_eq_true_2. }
  split.
  - intros w key p status status' Hfc Hp.
    rewrite !(Hhit w key p) by done. done.
  - exists created_world, 1, PipelineDone,
      (PipelineRaw.mk 1 7 100 7 100 "release-42" PipelineOpen).
    split; [|discriminate].
    rewrite (Hhit created_world 1 (PipelineRaw.mk 1 7 100 7 100 "release-42" PipelineOpen));
      [reflexivity | reflexivity | vm_compute; reflexivity].
Qed.

(** C9 at a lookup asking for a [DONE] pipeline 1 while an [OPEN] one is
    cached. *)
Lemma cache_hit_ignores_status_filter_witness :
  (FindPipeline same_error plain_find find_1_done created_world).1
    = Ok (Some (PipelineRaw.mk 1 7 100 7 100 "release-42" PipelineOpen)) ∧
  FindPipeline same_error plain_find find_1_done created_world
    = FindPipeline same_error plain_find (PipelineFind.mk (Some 1) None) created_world.
Proof.
  destruct (cache_hit_ignores_status_filter same_error plain_find) as [Hall _].
  apply (Hall created_world 1 (PipelineRaw.mk 1 7 100 7 100 "release-42" PipelineOpen)
           (Some PipelineDone) None); [reflexivity | vm_compute; reflexivity].
Defined.

(** C10. [ToProjectMember] copies ID, CreatorID, CreatedTs, UpdaterID,
    UpdatedTs, Role, PrincipalID, RoleProvider and Payload from the fields
    of the same name, and takes ProjectID from [raw.PrincipalID]: the
    result carries the raw ProjectID only when it happens to equal the
    PrincipalID, and some raw value loses it. *)
Theorem ToProjectMember_fields (Principal : Type) :
  (∀ raw : ProjectMemberRaw,
     let m := ToProjectMember (Principal := Principal) raw in
     ProjectMember.ID m = ProjectMemberRaw.ID raw ∧
     ProjectMember.CreatorID m = ProjectMemberRaw.CreatorID raw ∧
     ProjectMember.CreatedTs m = ProjectMemberRaw.CreatedTs raw ∧
     ProjectMember.UpdaterID m = ProjectMemberRaw.UpdaterID raw ∧
     ProjectMember.UpdatedTs m = ProjectMemberRaw.UpdatedTs raw ∧
     ProjectMember.Role m = ProjectMemberRaw.Role raw ∧
     ProjectMember.PrincipalID m = ProjectMemberRaw.PrincipalID raw ∧
     ProjectMember.RoleProvider m = ProjectMemberRaw.RoleProvider raw ∧
     ProjectMember.Payload m = ProjectMemberRaw.Payload raw ∧
     ProjectMember.ProjectID m = ProjectMemberRaw.PrincipalID raw ∧
     (ProjectMember.ProjectID m = ProjectMemberRaw.ProjectID raw ↔
      ProjectMemberRaw.PrincipalID raw = ProjectMemberRaw.ProjectID raw)) ∧
  (∃ raw : ProjectMemberRaw,
     ProjectMember.ProjectID (ToProjectMember (Principal := Principal) raw)
       ≠ ProjectMemberRaw.ProjectID raw).
Proof.
  split.
  - intros raw. cbn. split_and!; done.
  - exists sample_member. cbn. lia.
Qed.

(** ** Further properties of the service *)

(** *** Observations every call preserves *)

Section Keeps.
Context {A B C : Type} (f : World → C).

Lemma keeps_ret (a : A) : keeps f (mret a).
Proof. by intros w. Qed.

Lemma keeps_throw (e : error) : keeps f (mthrow (M := M) (A := A) e).
Proof. by intros w. Qed.

Lemma keeps_bind (m : M A) (k : A → M B) :
  keeps f m → (∀ a, keeps f (k a)) → keeps f (m ≫= k).
Proof.
  intros Hm Hk w. unfold mbind, M_bind.
  specialize (Hm w). destruct (m w) as [[a|e] w1]; cbn in *; [|done].
  by rewrite Hk.
Qed.

Lemma keeps_wrap_err (wrap : error → error) (m : M A) :
  keeps f m → keeps f (wrap_err wrap m).
Proof.
  intros Hm w. unfold wrap_err. specialize (Hm w).
  by destruct (m w) as [[a|e] w1].
Qed.

Lemma keeps_defer (d : M B) (body : M A) :
  keeps f d → keeps f body → keeps f (defer d body).
Proof.
  intros Hd Hb w. unfold defer. specialize (Hb w).
  destruct (body w) as [r w1]; cbn in *. by rewrite Hd.
Qed.
End Keeps.

Create HintDb keeps.
#[local] Hint Resolve keeps_ret keeps_throw keeps_bind keeps_wrap_err keeps_defer : keeps.

Lemma keeps_table_BeginTx : keeps table BeginTx.
Proof. intros w. unfold BeginTx. by case_match. Qed.

Lemma keeps_table_QueryContext q args : keeps table (QueryContext q args).
Proof.
  intros w. unfold QueryContext. repeat case_match; try done.
  all: by destruct w.
Qed.

Lemma keeps_table_Rollback : keeps table Rollback.
Proof. intros w. unfold Rollback. by case_match. Qed.

Lemma keeps_table_UpsertCache key value : keeps table (UpsertCache key value).
Proof. intros w. unfold UpsertCache. by case_match. Qed.

Lemma keeps_table_FindCache key : keeps table (FindCache key).
Proof. intros w. unfold FindCache. by case_match. Qed.

Lemma keeps_Scan {C} (f : World → C) rows : keeps f (Scan rows).
Proof. intros w. unfold Scan. by repeat case_match. Qed.

Lemma keeps_RowsErr {C} (f : World → C) rows : keeps f (RowsErr rows).
Proof. intros w. unfold RowsErr. by case_match. Qed.

#[local] Hint Resolve keeps_table_BeginTx keeps_table_QueryContext keeps_table_Rollback
  keeps_table_UpsertCache keeps_table_FindCache keeps_Scan keeps_RowsErr : keeps.

Lemma keeps_scan_rows {C} (f : World → C) FormatError todo rows acc :
  keeps f (scan_rows FormatError todo rows acc).
Proof.
  revert rows acc. induction todo as [|r todo IH]; intros rows acc; cbn [scan_rows];
    [|destruct (Next rows)]; auto with keeps.
Qed.
#[local] Hint Resolve keeps_scan_rows : keeps.

Lemma keeps_table_findPipelineList FormatError find :
  keeps table (findPipelineList FormatError find).
Proof.
  unfold findPipelineList.
  destruct (PipelineFind.ID find), (PipelineFind.Status find); auto 10 with keeps.
Qed.

Lemma keeps_table_upsert_each l : keeps table (upsert_each l).
Proof. induction l as [|p l IH]; cbn [upsert_each]; auto with keeps. Qed.
#[local] Hint Resolve keeps_table_findPipelineList keeps_table_upsert_each : keeps.

(** X4. Neither [FindPipeline] nor [FindPipelineList] ever changes the
    committed table, whatever the collaborators answer. *)
Theorem find_never_changes_table FormatError fmt_find find w :
  table (FindPipeline FormatError fmt_find find w).2 = table w ∧
  table (FindPipelineList FormatError find w).2 = table w.
Proof.
  split.
  - revert w. change (keeps table (FindPipeline FormatError fmt_find find)).
    unfold FindPipeline.
    apply keeps_bind; [case_match; auto with keeps|].
    intros [p|]; [auto with keeps|].
    apply keeps_bind; [auto with keeps|]. intros _.
    apply keeps_defer; [auto with keeps|].
    apply keeps_bind; [auto with keeps|]. intros l.
    repeat case_match; auto 10 with keeps.
  - revert w. change (keeps table (FindPipelineList FormatError find)).
    unfold FindPipelineList. auto 10 with keeps.
Qed.

Lemma keeps_faults_BeginTx : keeps faults BeginTx.
Proof. intros w. unfold BeginTx. by case_match. Qed.

Lemma keeps_faults_QueryContext q args : keeps faults (QueryContext q args).
Proof.
  intros w. unfold QueryContext. repeat case_match; try done.
  all: by destruct w.
Qed.

Lemma keeps_faults_Commit : keeps faults Commit.
Proof. intros w. unfold Commit. by repeat case_match. Qed.

Lemma keeps_faults_Rollback : keeps faults Rollback.
Proof. intros w. unfold Rollback. by case_match. Qed.

Lemma keeps_faults_UpsertCache key value : keeps faults (UpsertCache key value).
Proof. intros w. unfold UpsertCache. by case_match. Qed.

Lemma keeps_faults_FindCache key : keeps faults (FindCache key).
Proof. intros w. unfold FindCache. by case_match. Qed.

#[local] Hint Resolve keeps_faults_BeginTx keeps_faults_QueryContext keeps_faults_Commit
  keeps_faults_Rollback keeps_faults_UpsertCache keeps_faults_FindCache : keeps.

Lemma keeps_faults_findPipelineList FormatError find :
  keeps faults (findPipelineList FormatError find).
Proof.
  unfold findPipelineList.
  destruct (PipelineFind.ID find), (PipelineFind.Status find); auto 10 with keeps.
Qed.

Lemma keeps_faults_upsert_each l : keeps faults (upsert_each l).
Proof. induction l as [|p l IH]; cbn [upsert_each]; auto with keeps. Qed.
#[local] Hint Resolve keeps_faults_findPipelineList keeps_faults_upsert_each : keeps.

Lemma keeps_faults_FindPipeline FormatError fmt_find find :
  keeps faults (FindPipeline FormatError fmt_find find).
Proof.
  unfold FindPipeline.
  apply keeps_bind; [case_match; auto with keeps|].
  intros [p|]; [auto with keeps|].
  apply keeps_bind; [auto with keeps|]. intros _.
  apply keeps_defer; [auto with keeps|].
  apply keeps_bind; [auto with keeps|]. intros l.
  repeat case_match; auto 10 with keeps.
Qed.

Lemma keeps_faults_CreatePipeline FormatError create :
  keeps faults (CreatePipeline FormatError create).
Proof.
  unfold CreatePipeline, createPipeline.
  apply keeps_bind; [auto with keeps|]. intros _.
  apply keeps_defer; [auto with keeps|].
  apply keeps_bind; [|auto 10 with keeps].
  apply keeps_bind; [auto with keeps|]. intros row.
  destruct (Next row). auto with keeps.
Qed.

Lemma keeps_faults_PatchPipeline FormatError patch :
  keeps faults (PatchPipeline FormatError patch).
Proof.
  unfold PatchPipeline. rewrite patchPipeline_eq.
  apply keeps_bind; [auto with keeps|]. intros _.
  apply keeps_defer; [auto with keeps|].
  apply keeps_bind; [|auto 10 with keeps].
  apply keeps_wrap_err, keeps_bind; [auto with keeps|].
  intros row. destruct (Next row) as [[|] row']; auto 10 with keeps.
Qed.

(** *** The transaction is released on every path *)

Lemma keeps_txn_FindCache key : keeps txn (FindCache key).
Proof. intros w. unfold FindCache. by case_match. Qed.

Lemma defer_Rollback_txn {A} (body : M A) w : txn (defer Rollback body w).2 = None.
Proof.
  unfold defer. destruct (body w) as [r w1]. cbn. unfold Rollback.
  by destruct (txn w1) eqn:Ht.
Qed.

Lemma begin_defer_txn {A} FormatError (body : M A) w :
  txn w = None →
  txn ((wrap_err FormatError BeginTx;; defer Rollback body) w).2 = None.
Proof.
  intros Ht. unfold mbind, M_bind, wrap_err, BeginTx.
  destruct (f_begin (faults w)); [done|]. apply defer_Rollback_txn.
Qed.

(** X5. Started with no transaction open, each of the four operations
    ends with none open, on every path: the deferred rollback releases
    what [BeginTx] opened also when a query, a scan, the commit or a cache
    write fails. *)
Theorem no_transaction_left_open FormatError fmt_find create patch find w :
  txn w = None →
  txn (CreatePipeline FormatError create w).2 = None ∧
  txn (PatchPipeline FormatError patch w).2 = None ∧
  txn (FindPipelineList FormatError find w).2 = None ∧
  txn (FindPipeline FormatError fmt_find find w).2 = None.
Proof.
  intros Ht. split_and!.
  - by apply begin_defer_txn.
  - by apply begin_defer_txn.
  - by apply begin_defer_txn.
  - unfold FindPipeline. unfold mbind at 1, M_bind at 1.
    assert (keeps txn (match PipelineFind.ID find with
                       | Some key => FindCache key
                       | None => mret (M := M) None
                       end)) as Hprobe.
    { case_match; [apply keeps_txn_FindCache | apply keeps_ret]. }
    specialize (Hprobe w). rewrite Ht in Hprobe.
    destruct (match PipelineFind.ID find with
              | Some key => FindCache key
              | None => mret (M := M) None
              end w) as [[[p|]|e] w0]; cbn in Hprobe; try done.
    by apply begin_defer_txn.
Qed.

Lemma no_transaction_left_open_witness :
  txn done_world = None ∧
  txn (PatchPipeline same_error reopen done_world).2 = None ∧
  txn (FindPipeline same_error plain_find find_open done_world).2 = None.
Proof.
  split; [reflexivity|].
  destruct (no_transaction_left_open same_error plain_find release_42 reopen find_open
              done_world eq_refl) as (_ & Hp & _ & Hf).
  split; [exact Hp | exact Hf].
Defined.

(** *** What a lookup never does *)

Section EmitsOnly.
Context {A B : Type} (P : Event → bool).

Lemma emits_ret (a : A) : emits_only P (mret a).
Proof. intros w. exists []. by rewrite app_nil_r. Qed.

Lemma emits_throw (e : error) : emits_only P (mthrow (M := M) (A := A) e).
Proof. intros w. exists []. by rewrite app_nil_r. Qed.

Lemma emits_bind (m : M A) (k : A → M B) :
  emits_only P m → (∀ a, emits_only P (k a)) → emits_only P (m ≫= k).
Proof.
  intros Hm Hk w. unfold mbind, M_bind.
  destruct (Hm w) as (new1 & H1 & P1). destruct (m w) as [[a|e] w1]; cbn in *.
  - destruct (Hk a w1) as (new2 & H2 & P2). exists (new1 ++ new2).
    by rewrite H2, H1, app_assoc, forallb_app, P1, P2.
  - by exists new1.
Qed.

Lemma emits_wrap_err (wrap : error → error) (m : M A) :
  emits_only P m → emits_only P (wrap_err wrap m).
Proof.
  intros Hm w. unfold wrap_err. destruct (Hm w) as (new & H & HP).
  destruct (m w) as [[a|e] w1]; by exists new.
Qed.

Lemma emits_defer (d : M B) (body : M A) :
  emits_only P d → emits_only P body → emits_only P (defer d body).
Proof.
  intros Hd Hb w. unfold defer.
  destruct (Hb w) as (new1 & H1 & P1). destruct (body w) as [r w1]; cbn in *.
  destruct (Hd w1) as (new2 & H2 & P2). exists (new1 ++ new2).
  by rewrite H2, H1, app_assoc, forallb_app, P1, P2.
Qed.

Lemma emits_silent (m : M A) : keeps log m → emits_only P m.
Proof. intros Hm w. exists []. by rewrite app_nil_r, Hm. Qed.
End EmitsOnly.

Lemma emits_weaken {A} (P Q : Event → bool) (m : M A) :
  (∀ e, P e = true → Q e = true) → emits_only P m → emits_only Q m.
Proof.
  intros HPQ Hm w. destruct (Hm w) as (new & H & HP). exists new. split; [done|].
  apply forallb_forall. intros e He. apply HPQ.
  rewrite forallb_forall in HP. by apply HP.
Qed.

Lemma emits_list_BeginTx : emits_only list_event BeginTx.
Proof. intros w. unfold BeginTx. case_match; by eexists. Qed.

Lemma emits_list_Rollback : emits_only list_event Rollback.
Proof. intros w. unfold Rollback. case_match; by eexists. Qed.

Lemma emits_list_UpsertCache key value : emits_only list_event (UpsertCache key value).
Proof. intros w. unfold UpsertCache. case_match; by eexists. Qed.

Lemma emits_list_Select cols where_ args :
  emits_only list_event (QueryContext (Select cols where_) args).
Proof.
  intros w. unfold QueryContext. repeat case_match; try (by eexists).
  all: destruct w; by eexists.
Qed.

Lemma emits_read_FindCache key : emits_only read_event (FindCache key).
Proof. intros w. unfold FindCache. case_match; by eexists. Qed.

Create HintDb emits.
#[local] Hint Resolve emits_ret emits_throw emits_bind emits_wrap_err emits_defer
  emits_list_BeginTx emits_list_Rollback emits_list_UpsertCache emits_list_Select : emits.

Lemma emits_list_scan_rows FormatError todo rows acc :
  emits_only list_event (scan_rows FormatError todo rows acc).
Proof. apply emits_silent, keeps_scan_rows. Qed.

Lemma emits_list_RowsErr rows : emits_only list_event (RowsErr rows).
Proof. apply emits_silent, keeps_RowsErr. Qed.

Lemma emits_list_findPipelineList FormatError find :
  emits_only list_event (findPipelineList FormatError find).
Proof.
  unfold findPipelineList.
  pose proof emits_list_scan_rows. pose proof emits_list_RowsErr.
  destruct (PipelineFind.ID find), (PipelineFind.Status find); auto 10 with emits.
Qed.

Lemma emits_list_upsert_each l : emits_only list_event (upsert_each l).
Proof. induction l as [|p l IH]; cbn [upsert_each]; auto with emits. Qed.
#[local] Hint Resolve emits_list_findPipelineList emits_list_upsert_each : emits.

Lemma list_event_read e : list_event e = true → read_event e = true.
Proof. by destruct e. Qed.

(** X16. On every run [FindPipelineList] goes to the store without
    probing the cache, and neither lookup ever commits or issues a
    statement other than a SELECT. *)
Theorem lookups_only_read FormatError fmt_find find w :
  (∃ new, log (FindPipelineList FormatError find w).2 = log w ++ new ∧
     ∀ e, e ∈ new →
       (∀ key hit, e ≠ EvFindCache key hit) ∧
       (∀ ok, e ≠ EvCommit ok) ∧
       (∀ q args ok, e = EvQuery q args ok → ∃ cols where_, q = Select cols where_)) ∧
  (∃ new, log (FindPipeline FormatError fmt_find find w).2 = log w ++ new ∧
     ∀ e, e ∈ new →
       (∀ ok, e ≠ EvCommit ok) ∧
       (∀ q args ok, e = EvQuery q args ok → ∃ cols where_, q = Select cols where_)).
Proof.
  assert (∀ e, read_event e = true →
            (∀ ok, e ≠ EvCommit ok) ∧
            (∀ q args ok, e = EvQuery q args ok → ∃ cols where_, q = Select cols where_))
    as Hread.
  { intros e He. split.
    - intros ok ->. discriminate He.
    - intros q args ok ->. destruct q; try discriminate He. by eexists _, _. }
  split.
  - assert (emits_only list_event (FindPipelineList FormatError find)) as Hm.
    { unfold FindPipelineList. auto 10 with emits. }
    destruct (Hm w) as (new & Hlog & HP). exists new. split; [done|].
    intros e He. rewrite forallb_forall in HP.
    apply list_elem_of_In, HP in He.
    destruct (Hread e (list_event_read e He)) as [? ?].
    split_and!; try done. intros key hit ->. discriminate He.
  - assert (emits_only read_event (FindPipeline FormatError fmt_find find)) as Hm.
    { unfold FindPipeline.
      apply emits_bind; [case_match; [apply emits_read_FindCache | apply emits_ret]|].
      intros [p|]; [apply emits_ret|].
      apply (emits_weaken list_event); [apply list_event_read|].
      apply emits_bind; [auto with emits|]. intros _.
      apply emits_defer; [auto with emits|].
      apply emits_bind; [auto with emits|]. intros l.
      repeat case_match; auto 10 with emits. }
    destruct (Hm w) as (new & Hlog & HP). exists new. split; [done|].
    intros e He. rewrite forallb_forall in HP.
    apply list_elem_of_In, HP in He. by apply Hread.
Qed.

(** *** Listing *)

Lemma keeps_cache_Rollback : keeps cache Rollback.
Proof. intros w. unfold Rollback. by case_match. Qed.

Lemma cache_all_snoc l p c :
  cache_all (l ++ [p]) c = <[PipelineRaw.ID p := p]> (cache_all l c).
Proof. unfold cache_all. by rewrite foldl_app. Qed.

Lemma cache_all_lookup l c (k : Z) :
  (cache_all l c !! k = c !! k ∧ ∀ p, p ∈ l → PipelineRaw.ID p ≠ k) ∨
  (∃ p, p ∈ l ∧ PipelineRaw.ID p = k ∧ cache_all l c !! k = Some p).
Proof.
  induction l as [|p l IH] using rev_ind.
  - left. split; [done|]. intros p Hp. by apply not_elem_of_nil in Hp.
  - rewrite cache_all_snoc.
    destruct (decide (PipelineRaw.ID p = k)) as [<-|Hne].
    + right. exists p. rewrite lookup_insert_eq. split_and!; try done.
      apply elem_of_app. right. by left.
    + rewrite lookup_insert_ne by done.
      destruct IH as [[Heq Hall]|(p' & Hin & Hid & Hc)].
      * left. split; [done|]. intros q Hq.
        apply elem_of_app in Hq as [Hq|Hq]; [by apply Hall|].
        apply list_elem_of_singleton in Hq. by subst.
      * right. exists p'. split_and!; try done. apply elem_of_app. by left.
Qed.

(** The cache writes of a listing stop at the first one that fails. *)
Lemma upsert_each_run l w :
  (∀ p, p ∈ l → f_upsert_cache (faults w) (PipelineRaw.ID p) = None) →
  (upsert_each l w).1 = Ok () ∧ cache (upsert_each l w).2 = cache_all l (cache w).
Proof.
  revert w. induction l as [|p l IH]; intros w Hok; [done|].
  cbn [upsert_each]. unfold mbind, M_bind, UpsertCache.
  rewrite Hok by left.
  set (w1 := emit _ _).
  destruct (IH w1) as [Hr Hc]; [intros q Hq; apply Hok; by right|].
  by rewrite Hr, Hc.
Qed.

Lemma upsert_each_fail l1 p l2 w e :
  (∀ q, q ∈ l1 → f_upsert_cache (faults w) (PipelineRaw.ID q) = None) →
  f_upsert_cache (faults w) (PipelineRaw.ID p) = Some e →
  (upsert_each (l1 ++ p :: l2) w).1 = Err e ∧
  cache (upsert_each (l1 ++ p :: l2) w).2 = cache_all l1 (cache w).
Proof.
  revert w. induction l1 as [|q l1 IH]; intros w Hok He.
  - cbn [app upsert_each]. unfold mbind, M_bind, UpsertCache. by rewrite He.
  - cbn [app upsert_each]. unfold mbind, M_bind, UpsertCache.
    rewrite Hok by left.
    set (w1 := emit _ _).
    destruct (IH w1) as [Hr Hc]; [intros q' Hq'; apply Hok; by right|done|].
    by rewrite Hr, Hc.
Qed.

Lemma FindPipelineList_run FormatError find w :
  query_ok w →
  ∃ w2, cache w2 = cache w ∧ faults w2 = faults w ∧
    let rows := filter (pipeline_matches find) (table w) in
    (FindPipelineList FormatError find w).1
      = match (upsert_each rows w2).1 with
        | Ok _ => Ok rows
        | Err e => Err e
        end ∧
    cache (FindPipelineList FormatError find w).2 = cache (upsert_each rows w2).2.
Proof.
  intros (Hb & Hq & Hs & Hr).
  destruct (FindPipelineList FormatError find w) as [res w'] eqn:Hout.
  unfold FindPipelineList in Hout.
  unfold mbind at 1, M_bind at 1, wrap_err at 1, BeginTx in Hout.
  rewrite Hb in Hout.
  set (w1 := emit (EvBeginTx true) (set_txn (Some (table w)) w)) in Hout.
  destruct (findPipelineList_run FormatError find w1 (table w)) as (q & args & Hrun);
    [done..|].
  exists (emit (EvQuery q args true) (set_txn (Some (table w)) w1)).
  split; [done|]. split; [done|]. cbv zeta.
  unfold defer, mbind, M_bind in Hout. rewrite Hrun in Hout.
  destruct (upsert_each _ _) as [[[]|e] w3]; unfold mret, M_ret in Hout;
    cbn [fst snd] in *; simplify_eq.
  - split; [done|]. apply keeps_cache_Rollback.
  - split; [done|]. apply keeps_cache_Rollback.
Qed.

(** X1. On a read round trip without failures [FindPipelineList] returns
    the rows matching the filter, in store order, and writes each one to
    the cache: afterwards every returned ID is cached with a returned
    entity of that ID, and the entries under other IDs are as before. *)
Theorem list_returns_matches_and_caches_them FormatError find w :
  query_ok w →
  let rows := filter (pipeline_matches find) (table w) in
  let out := FindPipelineList FormatError find w in
  (∀ p, p ∈ rows → f_upsert_cache (faults w) (PipelineRaw.ID p) = None) →
  out.1 = Ok rows ∧
  (∀ p, p ∈ rows →
     ∃ p', p' ∈ rows ∧ PipelineRaw.ID p' = PipelineRaw.ID p ∧
           cache out.2 !! PipelineRaw.ID p = Some p') ∧
  (∀ key, (∀ p, p ∈ rows → PipelineRaw.ID p ≠ key) → cache out.2 !! key = cache w !! key).
Proof.
  intros Hok. cbv zeta. intros Hup.
  destruct (FindPipelineList_run FormatError find w Hok) as (w2 & Hc2 & Hf2 & Hres & Hcache).
  destruct (upsert_each_run (filter (pipeline_matches find) (table w)) w2) as [Hr Hc];
    [by rewrite Hf2|].
  rewrite Hres, Hcache, Hr, Hc, Hc2. split; [done|]. split.
  - intros p Hp.
    destruct (cache_all_lookup (filter (pipeline_matches find) (table w)) (cache w)
                (PipelineRaw.ID p)) as [[_ Hall]|(p' & Hin & Hid & Hl)].
    + by destruct (Hall p Hp).
    + by exists p'.
  - intros key Hkey.
    destruct (cache_all_lookup (filter (pipeline_matches find) (table w)) (cache w) key)
      as [[Heq _]|(p' & Hin & Hid & _)]; [done|].
    by destruct (Hkey p' Hin).
Qed.

Lemma list_returns_matches_and_caches_them_witness :
  query_ok two_open_world ∧
  (FindPipelineList same_error find_open two_open_world).1 = Ok (table two_open_world) ∧
  cache (FindPipelineList same_error find_open two_open_world).2 !! 3 = None.
Proof.
  assert (query_ok two_open_world) as Hok by (repeat split).
  split; [exact Hok|].
  destruct (list_returns_matches_and_caches_them same_error find_open two_open_world Hok)
    as (Hres & _ & Hother); [reflexivity|].
  split; [exact Hres|].
  rewrite Hother; [reflexivity|].
  intros p Hp. vm_compute in Hp.
  apply elem_of_cons in Hp as [->|Hp]; [done|].
  apply list_elem_of_singleton in Hp as ->. done.
Defined.

Lemma filter_no_field (find : PipelineFind) (t : Table) :
  PipelineFind.ID find = None → PipelineFind.Status find = None →
  filter (pipeline_matches find) t = t.
Proof.
  intros Hi Hs. induction t as [|r t IH]; [done|].
  rewrite filter_cons_True; [by rewrite IH|].
  unfold pipeline_matches. by rewrite Hi, Hs.
Qed.

(** X2. A listing whose request sets no field returns every stored
    pipeline, in store order. *)
Theorem list_without_filter_returns_all FormatError find w :
  PipelineFind.ID find = None →
  PipelineFind.Status find = None →
  query_ok w →
  (∀ p, p ∈ table w → f_upsert_cache (faults w) (PipelineRaw.ID p) = None) →
  (FindPipelineList FormatError find w).1 = Ok (table w).
Proof.
  intros Hi Hs Hok Hup.
  destruct (FindPipelineList_run FormatError find w Hok) as (w2 & Hc2 & Hf2 & Hres & _).
  cbv zeta in Hres. rewrite (filter_no_field find) in Hres by done.
  destruct (upsert_each_run (table w) w2) as [Hr _]; [by rewrite Hf2|].
  by rewrite Hres, Hr.
Qed.

Lemma list_without_filter_returns_all_witness :
  query_ok done_world ∧
  (FindPipelineList same_error find_all done_world).1 = Ok (table done_world).
Proof.
  assert (query_ok done_world) as Hok by (repeat split).
  split; [exact Hok|].
  apply (list_without_filter_returns_all same_error find_all done_world);
    [reflexivity | reflexivity | exact Hok | reflexivity].
Defined.

(** X3. When the cache refuses one of the entities of a listing,
    [FindPipelineList] returns that error as it is and no list, although
    the query succeeded; the entities before the refused one stay cached
    and nothing is written for the refused one. *)
Theorem list_stops_at_failed_cache_write FormatError find w l1 p l2 e :
  query_ok w →
  filter (pipeline_matches find) (table w) = l1 ++ p :: l2 →
  (∀ q, q ∈ l1 → f_upsert_cache (faults w) (PipelineRaw.ID q) = None) →
  f_upsert_cache (faults w) (PipelineRaw.ID p) = Some e →
  let out := FindPipelineList FormatError find w in
  out.1 = Err e ∧
  cache out.2 = cache_all l1 (cache w) ∧
  (∀ q, q ∈ l1 → is_Some (cache out.2 !! PipelineRaw.ID q)) ∧
  cache out.2 !! PipelineRaw.ID p = cache w !! PipelineRaw.ID p.
Proof.
  intros Hok Hrows Hl1 Hp. cbv zeta.
  destruct (FindPipelineList_run FormatError find w Hok) as (w2 & Hc2 & Hf2 & Hres & Hcache).
  cbv zeta in Hres, Hcache. rewrite Hrows in Hres, Hcache.
  destruct (upsert_each_fail l1 p l2 w2 e) as [Hr Hc]; [by rewrite Hf2..|].
  rewrite Hres, Hcache, Hr, Hc, Hc2. split_and!; try done.
  - intros q Hq.
    destruct (cache_all_lookup l1 (cache w) (PipelineRaw.ID q)) as [[_ Hall]|(q' & _ & _ & Hl)].
    + by destruct (Hall q Hq).
    + by rewrite Hl.
  - destruct (cache_all_lookup l1 (cache w) (PipelineRaw.ID p))
      as [[Heq _]|(q' & Hin & Hid & _)]; [done|].
    specialize (Hl1 q' Hin). rewrite Hid in Hl1. congruence.
Qed.

Lemma list_stops_at_failed_cache_write_witness :
  query_ok (with_faults cache_down_at_2 two_open_world) ∧
  (FindPipelineList same_error find_open (with_faults cache_down_at_2 two_open_world)).1
    = Err (ExternalError "cache: write failed") ∧
  is_Some (cache (FindPipelineList same_error find_open
                    (with_faults cache_down_at_2 two_open_world)).2 !! 1).
Proof.
  assert (query_ok (with_faults cache_down_at_2 two_open_world)) as Hok by (repeat split).
  split; [exact Hok|].
  destruct (list_stops_at_failed_cache_write same_error find_open
              (with_faults cache_down_at_2 two_open_world)
              [PipelineRaw.mk 1 7 100 7 100 "a" PipelineOpen]
              (PipelineRaw.mk 2 7 110 7 110 "b" PipelineOpen) []
              (ExternalError "cache: write failed") Hok)
    as (Hres & _ & Hcached & _).
  - reflexivity.
  - intros q Hq. apply list_elem_of_singleton in Hq as ->. reflexivity.
  - reflexivity.
  - split; [exact Hres|].
    apply (Hcached (PipelineRaw.mk 1 7 100 7 100 "a" PipelineOpen)). by left.
Defined.

(** *** Single lookups and the cache *)

Lemma keeps_cache_BeginTx : keeps cache BeginTx.
Proof. intros w. unfold BeginTx. by case_match. Qed.

Lemma keeps_cache_QueryContext q args : keeps cache (QueryContext q args).
Proof.
  intros w. unfold QueryContext. repeat case_match; try done.
  all: by destruct w.
Qed.

Lemma keeps_cache_FindCache key : keeps cache (FindCache key).
Proof. intros w. unfold FindCache. by case_match. Qed.

#[local] Hint Resolve keeps_cache_Rollback keeps_cache_BeginTx keeps_cache_QueryContext
  keeps_cache_FindCache : keeps.

Lemma keeps_cache_findPipelineList FormatError find :
  keeps cache (findPipelineList FormatError find).
Proof.
  unfold findPipelineList.
  destruct (PipelineFind.ID find), (PipelineFind.Status find); auto 10 with keeps.
Qed.

(** A hit returns the cached entity and touches nothing but the log. *)
Lemma FindPipeline_hit FormatError fmt_find find w key p :
  PipelineFind.ID find = Some key →
  f_find_cache (faults w) = None →
  cache w !! key = Some p →
  FindPipeline FormatError fmt_find find w = (Ok (Some p), emit (EvFindCache key true) w).
Proof.
  intros Hid Hfc Hp. unfold FindPipeline. rewrite Hid.
  unfold mbind, M_bind, FindCache. rewrite Hfc, Hp.
  by rewrite bool_decide_eq_true_2.
Qed.

(** Either the cache is as before, and an entity returned then came from
    a hit under the requested ID; or the entity returned was fetched from
    the store and is now cached under its own ID. *)
Lemma FindPipeline_cache_effect FormatError fmt_find find w :
  let out := FindPipeline FormatError fmt_find find w in
  (cache out.2 = cache w ∧
   ∀ p, out.1 = Ok (Some p) →
     ∃ key, PipelineFind.ID find = Some key ∧ f_find_cache (faults w) = None ∧
            cache w !! key = Some p) ∨
  (∃ p, out.1 = Ok (Some p) ∧ cache out.2 = <[PipelineRaw.ID p := p]> (cache w)).
Proof.
  cbv zeta.
  destruct (FindPipeline FormatError fmt_find find w) as [res w'] eqn:Hout.
  unfold FindPipeline in Hout. unfold mbind at 1, M_bind at 1 in Hout.
  destruct (match PipelineFind.ID find with
            | Some key => FindCache key
            | None => mret (M := M) None
            end w) as [probe w0] eqn:Hprobe.
  assert (cache w0 = cache w) as Hc0.
  { destruct (PipelineFind.ID find);
      [pose proof (keeps_cache_FindCache z w) as H | pose proof (keeps_ret cache (@None PipelineRaw) w) as H];
      by rewrite Hprobe in H. }
  destruct probe as [[p|]|e]; unfold mret, M_ret in Hout.
  - (* hit *)
    simplify_eq. left. split; [done|]. intros p' [= <-]. cbn [snd].
    destruct (PipelineFind.ID find) as [key|]; [|discriminate Hprobe].
    exists key. split; [done|]. unfold FindCache in Hprobe.
    destruct (f_find_cache (faults w)); [discriminate|]. simplify_eq. done.
  - (* store path *)
    unfold mbind at 1, M_bind at 1, wrap_err at 1, BeginTx in Hout.
    destruct (f_begin (faults w0)).
    { simplify_eq. left. cbn [fst snd]. split; [done|]. intros ? [=]. }
    set (w1 := emit (EvBeginTx true) (set_txn (Some (table w0)) w0)) in Hout.
    assert (cache w1 = cache w) as Hc1 by done. clearbody w1.
    unfold defer, mbind at 1, M_bind at 1 in Hout.
    pose proof (keeps_cache_findPipelineList FormatError find w1) as Hc2.
    destruct (findPipelineList FormatError find w1) as [[l|e] w2]; cbn [snd] in Hc2.
    2:{ simplify_eq. left. cbn [fst snd]. rewrite keeps_cache_Rollback.
        split; [congruence|]. intros ? [=]. }
    destruct l as [|first [|second rest]].
    + cbn [length] in Hout. rewrite bool_decide_eq_true_2 in Hout by done.
      unfold mret, M_ret in Hout. simplify_eq. left. cbn [fst snd].
      rewrite keeps_cache_Rollback. split; [congruence|]. intros ? [=].
    + cbn [length lookup list_lookup] in Hout.
      rewrite bool_decide_eq_false_2 in Hout by done.
      rewrite bool_decide_eq_false_2 in Hout by lia.
      unfold mbind, M_bind, UpsertCache, mret, M_ret in Hout.
      destruct (f_upsert_cache (faults w2) (PipelineRaw.ID first)); simplify_eq.
      * left. cbn [fst snd]. rewrite keeps_cache_Rollback. world_step.
        split; [congruence|]. intros ? [=].
      * right. exists first. cbn [fst snd]. rewrite keeps_cache_Rollback. world_step.
        split; [done|]. congruence.
    + rewrite bool_decide_eq_false_2 in Hout by done.
      rewrite bool_decide_eq_true_2 in Hout by (cbn; lia).
      unfold mthrow, M_throw in Hout. simplify_eq. left. cbn [fst snd].
      rewrite keeps_cache_Rollback. split; [congruence|]. intros ? [=].
  - simplify_eq. left. split; [done|]. intros ? [=].
Qed.

(** X10. The only cache entry [FindPipeline] can change is the one of the
    entity it returns, under that entity's ID: a lookup that returns
    nothing or an error leaves the cache as it was. *)
Theorem find_caches_only_what_it_returns FormatError fmt_find find w key :
  let out := FindPipeline FormatError fmt_find find w in
  cache out.2 !! key ≠ cache w !! key →
  ∃ p, out.1 = Ok (Some p) ∧ PipelineRaw.ID p = key ∧ cache out.2 !! key = Some p.
Proof.
  cbv zeta. intros Hne.
  destruct (FindPipeline_cache_effect FormatError fmt_find find w)
    as [[Hsame _]|(p & Hres & Hc)].
  - by rewrite Hsame in Hne.
  - exists p. rewrite Hc in Hne |- *.
    destruct (decide (PipelineRaw.ID p = key)) as [<-|Hk].
    + by rewrite lookup_insert_eq.
    + by rewrite lookup_insert_ne in Hne.
Qed.

Lemma find_caches_only_what_it_returns_witness :
  cache (FindPipeline same_error plain_find find_1 done_world).2 !! 1
    ≠ cache done_world !! 1 ∧
  ∃ p, (FindPipeline same_error plain_find find_1 done_world).1 = Ok (Some p) ∧
       PipelineRaw.ID p = 1.
Proof.
  assert (cache (FindPipeline same_error plain_find find_1 done_world).2 !! 1
          ≠ cache done_world !! 1) as Hne by (vm_compute; discriminate).
  split; [exact Hne|].
  destruct (find_caches_only_what_it_returns same_error plain_find find_1 done_world 1 Hne)
    as (p & Hp & Hid & _).
  exists p. split; assumption.
Defined.

(** X9. An entity returned by a lookup that missed the cache is cached
    under its ID, so the next lookup by that ID is answered from the
    cache, without a transaction. *)
Theorem find_miss_then_find_hits FormatError fmt_find find find' w p :
  cache_miss find w →
  (FindPipeline FormatError fmt_find find w).1 = Ok (Some p) →
  f_find_cache (faults w) = None →
  PipelineFind.ID find' = Some (PipelineRaw.ID p) →
  let w' := (FindPipeline FormatError fmt_find find w).2 in
  cache w' !! PipelineRaw.ID p = Some p ∧
  FindPipeline FormatError fmt_find find' w'
    = (Ok (Some p), emit (EvFindCache (PipelineRaw.ID p) true) w').
Proof.
  intros Hmiss Hres Hfc Hid'. cbv zeta.
  assert (cache (FindPipeline FormatError fmt_find find w).2 !! PipelineRaw.ID p = Some p)
    as Hcached.
  { destruct (FindPipeline_cache_effect FormatError fmt_find find w)
      as [[_ Hhit]|(p' & Hres' & Hc)].
    - destruct (Hhit p Hres) as (key & Hid & _ & Hp).
      unfold cache_miss in Hmiss. rewrite Hid in Hmiss. destruct Hmiss as [_ Hnone].
      congruence.
    - rewrite Hres in Hres'. simplify_eq. by rewrite Hc, lookup_insert_eq. }
  split; [exact Hcached|].
  apply FindPipeline_hit; [done| |done].
  by rewrite keeps_faults_FindPipeline.
Qed.

Lemma find_miss_then_find_hits_witness :
  cache_miss find_1 done_world ∧
  FindPipeline same_error plain_find find_1_done
    (FindPipeline same_error plain_find find_1 done_world).2
  = (Ok (Some (PipelineRaw.mk 1 7 100 7 150 "release-42" PipelineDone)),
     emit (EvFindCache 1 true) (FindPipeline same_error plain_find find_1 done_world).2).
Proof.
  assert (cache_miss find_1 done_world) as Hmiss by (split; reflexivity).
  split; [exact Hmiss|].
  destruct (find_miss_then_find_hits same_error plain_find find_1 find_1_done done_world
              (PipelineRaw.mk 1 7 100 7 150 "release-42" PipelineDone) Hmiss)
    as [_ Hhit]; [reflexivity | reflexivity | reflexivity |].
  exact Hhit.
Defined.

(** X11. When the request carries an ID and the cache probe fails,
    [FindPipeline] returns the probe's error as it is and does not fall
    back to the store: no transaction is opened. *)
Theorem find_fails_when_probe_fails FormatError fmt_find find w key e :
  PipelineFind.ID find = Some key →
  f_find_cache (faults w) = Some e →
  FindPipeline FormatError fmt_find find w = (Err e, emit (EvFindCache key false) w).
Proof.
  intros Hid Hfc. unfold FindPipeline. rewrite Hid.
  unfold mbind, M_bind, FindCache. by rewrite Hfc.
Qed.

Lemma find_fails_when_probe_fails_witness :
  table (with_faults probe_down done_world)
    = [PipelineRaw.mk 1 7 100 7 150 "release-42" PipelineDone] ∧
  (FindPipeline same_error plain_find find_1 (with_faults probe_down done_world)).1
    = Err (ExternalError "cache: read failed").
Proof.
  split; [reflexivity|].
  rewrite (find_fails_when_probe_fails same_error plain_find find_1
             (with_faults probe_down done_world) 1 (ExternalError "cache: read failed"));
    reflexivity.
Defined.

(** *** Writes followed by lookups *)

(** An entity returned by Create or Patch is cached under its ID, and the
    ID of a patched entity is the one asked for. *)
Lemma CreatePipeline_ok_cached FormatError create w p :
  (CreatePipeline FormatError create w).1 = Ok p →
  cache (CreatePipeline FormatError create w).2 !! PipelineRaw.ID p = Some p.
Proof.
  rewrite CreatePipeline_eq. cbv zeta.
  repeat case_match; world_step; intros Hp; simplify_eq.
  apply lookup_insert_eq.
Qed.

Lemma PatchPipeline_ok_cached FormatError patch w p :
  (PatchPipeline FormatError patch w).1 = Ok p →
  PipelineRaw.ID p = PipelinePatch.ID patch ∧
  cache (PatchPipeline FormatError patch w).2 !! PipelineRaw.ID p = Some p.
Proof.
  rewrite PatchPipeline_eq. cbv zeta.
  repeat case_match; world_step; intros Hp; simplify_eq.
  split; [|apply lookup_insert_eq].
  match goal with
  | H : hits _ _ = ?r :: _ |- _ =>
      apply hits_cons in H as [_ Hid]; rewrite patched_hit by done; by destruct r
  end.
Qed.

(** X6. After a [CreatePipeline] that returned an entity, a lookup by that
    entity's ID returns the same entity from the cache, without going to
    the store. *)
Theorem create_then_find_hits_cache FormatError fmt_find create find w p :
  (CreatePipeline FormatError create w).1 = Ok p →
  f_find_cache (faults w) = None →
  PipelineFind.ID find = Some (PipelineRaw.ID p) →
  let w' := (CreatePipeline FormatError create w).2 in
  FindPipeline FormatError fmt_find find w'
    = (Ok (Some p), emit (EvFindCache (PipelineRaw.ID p) true) w').
Proof.
  intros Hp Hfc Hid. cbv zeta.
  apply FindPipeline_hit; [done | | by apply CreatePipeline_ok_cached].
  by rewrite keeps_faults_CreatePipeline.
Qed.

Lemma create_then_find_hits_cache_witness :
  (CreatePipeline same_error release_42 empty_world).1
    = Ok (PipelineRaw.mk 1 7 100 7 100 "release-42" PipelineOpen) ∧
  (FindPipeline same_error plain_find find_1 created_world).1
    = Ok (Some (PipelineRaw.mk 1 7 100 7 100 "release-42" PipelineOpen)).
Proof.
  split; [reflexivity|].
  unfold created_world.
  rewrite (create_then_find_hits_cache same_error plain_find release_42 find_1 empty_world
             (PipelineRaw.mk 1 7 100 7 100 "release-42" PipelineOpen));
    reflexivity.
Defined.

(** X7. After a [PatchPipeline] that returned an entity, a lookup by the
    patched ID returns that entity from the cache, without going to the
    store. *)
Theorem patch_then_find_hits_cache FormatError fmt_find patch find w p :
  (PatchPipeline FormatError patch w).1 = Ok p →
  f_find_cache (faults w) = None →
  PipelineFind.ID find = Some (PipelinePatch.ID patch) →
  let w' := (PatchPipeline FormatError patch w).2 in
  FindPipeline FormatError fmt_find find w'
    = (Ok (Some p), emit (EvFindCache (PipelinePatch.ID patch) true) w').
Proof.
  intros Hp Hfc Hid. cbv zeta.
  destruct (PatchPipeline_ok_cached FormatError patch w p Hp) as [Hpid Hc].
  rewrite Hpid in Hc.
  apply FindPipeline_hit; [done | | done].
  by rewrite keeps_faults_PatchPipeline.
Qed.

Lemma patch_then_find_hits_cache_witness :
  (PatchPipeline same_error reopen done_world).1
    = Ok (PipelineRaw.mk 1 7 100 8 200 "release-42" PipelineOpen) ∧
  (FindPipeline same_error plain_find find_1
     (PatchPipeline same_error reopen done_world).2).1
    = Ok (Some (PipelineRaw.mk 1 7 100 8 200 "release-42" PipelineOpen)).
Proof.
  split; [reflexivity|].
  rewrite (patch_then_find_hits_cache same_error plain_find reopen find_1 done_world
             (PipelineRaw.mk 1 7 100 8 200 "release-42" PipelineOpen));
    reflexivity.
Defined.

(** X8. When a patch is committed but the cache refuses the refreshed
    entity, the entry cached before stays: later lookups by that ID keep
    returning it while the table holds the patched row. *)
Theorem failed_refresh_leaves_stale_entry FormatError fmt_find patch find w r rest e old :
  store_ok w →
  hits patch (table w) = r :: rest →
  f_upsert_cache (faults w) (PipelinePatch.ID patch) = Some e →
  cache w !! PipelinePatch.ID patch = Some old →
  f_find_cache (faults w) = None →
  PipelineFind.ID find = Some (PipelinePatch.ID patch) →
  let w' := (PatchPipeline FormatError patch w).2 in
  (PatchPipeline FormatError patch w).1 = Err e ∧
  table w' = (patched (clock w) patch <$> table w) ∧
  patched (clock w) patch r ∈ table w' ∧
  (FindPipeline FormatError fmt_find find w').1 = Ok (Some old).
Proof.
  intros Hok Hh Hu Hold Hfc Hid. cbv zeta.
  destruct (hits_cons _ _ _ _ Hh) as [Hin Hrid].
  assert (PipelineRaw.ID (patched (clock w) patch r) = PipelinePatch.ID patch) as Hpid.
  { rewrite patched_hit by done. by destruct r. }
  assert (cache (PatchPipeline FormatError patch w).2 = cache w) as Hc.
  { destruct Hok as [Hqok Hcm]. pose proof (store_ok_cursor w Hqok) as Hcur.
    destruct Hqok as (Hb & Hq & Hs & _).
    rewrite PatchPipeline_eq. cbv zeta. rewrite Hb, Hq, Hcur, Hh, Hs, Hcm, Hpid, Hu. done. }
  destruct (upsert_failure_keeps_commit FormatError release_42 patch w e r rest Hok)
    as [_ Hpatch].
  destruct (Hpatch Hh Hu) as [Hres Htab].
  split_and!; [done | done | |].
  - rewrite Htab. by apply list_elem_of_fmap_2.
  - erewrite FindPipeline_hit; [done | done | | by rewrite Hc].
    by rewrite keeps_faults_PatchPipeline.
Qed.

Lemma failed_refresh_leaves_stale_entry_witness :
  store_ok cached_open_world ∧
  table (PatchPipeline same_error close_1 cached_open_world).2
    = [PipelineRaw.mk 1 7 100 8 200 "release-42" PipelineDone] ∧
  (FindPipeline same_error plain_find find_1
     (PatchPipeline same_error close_1 cached_open_world).2).1
    = Ok (Some (PipelineRaw.mk 1 7 100 7 100 "release-42" PipelineOpen)).
Proof.
  assert (store_ok cached_open_world) as Hok by (repeat split).
  split; [exact Hok|].
  destruct (failed_refresh_leaves_stale_entry same_error plain_find close_1 find_1
              cached_open_world
              (PipelineRaw.mk 1 7 100 7 100 "release-42" PipelineOpen) []
              (ExternalError "cache: write failed")
              (PipelineRaw.mk 1 7 100 7 100 "release-42" PipelineOpen) Hok)
    as (_ & Htab & _ & Hfind); [reflexivity..|].
  split; [exact Htab | exact Hfind].
Defined.

(** *** Which error a write returns, and what it leaves behind *)

(** X12. [CreatePipeline] returns an entity exactly when none of its
    collaborator calls fails: [BeginTx], the INSERT, the cursor before its
    first row, [Scan], [Commit] and the cache write. A failing store call
    gives its error passed through [FormatError] and leaves table and
    cache as they were; a failing cache write gives its error as it is,
    with the row committed. *)
Theorem create_outcome FormatError create w :
  let out := CreatePipeline FormatError create w in
  let row := created_row create w in
  let F := faults w in
  ((∃ p, out.1 = Ok p) ↔
     f_begin F = None ∧ f_query F = None ∧ cursor_breaks_first F = None ∧
     f_scan F (project all_columns row) = None ∧
     f_commit F = None ∧ f_upsert_cache F (next_id w) = None) ∧
  (∀ e, out.1 = Err e →
     (table out.2 = table w ∧ cache out.2 = cache w ∧
      ∃ e0, e = FormatError e0 ∧
        (f_begin F = Some e0 ∨ f_query F = Some e0 ∨ cursor_breaks_first F = Some e0 ∨
         f_scan F (project all_columns row) = Some e0 ∨ f_commit F = Some e0)) ∨
     (table out.2 = table w ++ [row] ∧ cache out.2 = cache w ∧
      f_upsert_cache F (next_id w) = Some e)).
Proof.
  cbv zeta. rewrite CreatePipeline_eq. cbv zeta. split.
  - repeat case_match; world_step; split; try (by intros [? [=]]); try (by eexists);
      intros (?&?&?&?&?&?); congruence.
  - intros e. repeat case_match; world_step; intros He; simplify_eq.
    all: try (left; split_and!; [done | done |]; eexists; split; [done|]; by eauto 6).
    right. by split_and!.
Qed.

(** X13. [PatchPipeline] returns an entity exactly when the cursor delivers
    a row carrying the ID and no collaborator call fails. It answers with
    the not-found error, passed through [FormatError] once, when no row
    carries the ID and also when the cursor breaks before its first row:
    [rows.Err] is never consulted, so a broken cursor reads as a missing
    pipeline. An error of [BeginTx] or [Commit] passes through
    [FormatError] once, an error of the query or of the scan twice; in all
    these cases table and cache are unchanged. A failing cache write gives
    its error as it is, with the patch committed. *)
Theorem patch_outcome FormatError patch w :
  let out := PatchPipeline FormatError patch w in
  let F := faults w in
  let stored r := project all_columns (patched (clock w) patch r) in
  ((∃ p, out.1 = Ok p) ↔
     f_begin F = None ∧ f_query F = None ∧ cursor_breaks_first F = None ∧
     ∃ r rest, hits patch (table w) = r :: rest ∧ f_scan F (stored r) = None ∧
       f_commit F = None ∧ f_upsert_cache F (PipelinePatch.ID patch) = None) ∧
  (f_begin F = None → f_query F = None →
   hits patch (table w) = [] ∨ is_Some (cursor_breaks_first F) →
   out.1 = Err (FormatError (not_found_error patch))) ∧
  (∀ e, out.1 = Err e →
     (table out.2 = table w ∧ cache out.2 = cache w ∧
      ((∃ e0, e = FormatError e0 ∧ (f_begin F = Some e0 ∨ f_commit F = Some e0)) ∨
       (∃ e0, e = FormatError (FormatError e0) ∧
          (f_query F = Some e0 ∨
           ∃ r rest, hits patch (table w) = r :: rest ∧ f_scan F (stored r) = Some e0)) ∨
       (e = FormatError (not_found_error patch) ∧
        (hits patch (table w) = [] ∨ is_Some (cursor_breaks_first F))))) ∨
     (table out.2 = (patched (clock w) patch <$> table w) ∧ cache out.2 = cache w ∧
      f_upsert_cache F (PipelinePatch.ID patch) = Some e)).
Proof.
  cbv zeta. rewrite PatchPipeline_eq. cbv zeta.
  assert (∀ r rest, hits patch (table w) = r :: rest →
            PipelineRaw.ID (patched (clock w) patch r) = PipelinePatch.ID patch) as Hpid.
  { intros r rest Hh. apply hits_cons in Hh as [_ Hid].
    rewrite patched_hit by done. by destruct r. }
  split_and!.
  - repeat case_match; world_step; split; try (by intros [? [=]]).
    all: try (intros (?&?&?&r'&rest'&?&?&?&?); simplify_eq; congruence).
    + intros (?&?&?&r'&rest'&?&?&?&Hu); simplify_eq.
      rewrite (Hpid _ _ eq_refl) in *. congruence.
    + intros _. split_and!; try done. eexists _, _. split_and!; try done.
      by rewrite <- (Hpid _ _ eq_refl).
    + intros _. by eexists.
  - intros Hb Hq Hmiss. rewrite Hb, Hq.
    destruct (cursor_breaks_first (faults w)); [done|].
    destruct Hmiss as [-> | [? [=]]]. done.
  - intros e. repeat case_match; world_step; intros He; simplify_eq.
    all: try (left; split_and!; [done | done |]).
    + left. eexists; split; [done|]. by left.
    + right. left. eexists; split; [done|]. by left.
    + right. right. split; [done|]. right. by eexists.
    + right. right. split; [done|]. by left.
    + right. left. eexists; split; [done|]. right. by eexists _, _.
    + left. eexists; split; [done|]. by right.
    + right. split_and!; try done. by rewrite <- (Hpid _ _ eq_refl).
Qed.

Lemma patch_outcome_witness :
  hits close_1 (table done_world) = [PipelineRaw.mk 1 7 100 7 150 "release-42" PipelineDone] ∧
  (PatchPipeline same_error close_1 (with_faults cursor_broken done_world)).1
    = Err (CommonError common.NotFound "pipeline ID not found: 1").
Proof.
  split; [reflexivity|].
  destruct (patch_outcome same_error close_1 (with_faults cursor_broken done_world))
    as (_ & Hmiss & _).
  apply Hmiss; [reflexivity | reflexivity |].
  right. by eexists.
Defined.

(** *** Role providers *)

(** X15. [String] is the identity on the two declared role providers and
    gives the empty string for every other value; applying it twice is
    the same as applying it once. *)
Theorem role_provider_string (e : ProjectRoleProvider) :
  (e = ProjectRoleProviderBytebase ∨ e = ProjectRoleProviderGitLabSelfHost →
     ProjectRoleProvider_String e = e) ∧
  (e ≠ ProjectRoleProviderBytebase → e ≠ ProjectRoleProviderGitLabSelfHost →
     ProjectRoleProvider_String e = "") ∧
  ProjectRoleProvider_String (ProjectRoleProvider_String e) = ProjectRoleProvider_String e.
Proof.
  unfold ProjectRoleProvider_String. split_and!.
  - intros [->| ->]; reflexivity.
  - intros H1 H2. by rewrite !decide_False.
  - destruct (decide (e = ProjectRoleProviderBytebase)) as [->|H1]; [reflexivity|].
    destruct (decide (e = ProjectRoleProviderGitLabSelfHost)) as [->|H2]; reflexivity.
Qed.

(** *** A created pipeline can be patched *)

Lemma hits_fresh patch (t : Table) (row : PipelineRaw) :
  (∀ r, r ∈ t → PipelineRaw.ID r ≠ PipelinePatch.ID patch) →
  PipelineRaw.ID row = PipelinePatch.ID patch →
  hits patch (t ++ [row]) = [row].
Proof.
  intros Hfresh Hid. apply hits_nil in Hfresh. unfold hits in *.
  rewrite filter_app, Hfresh. by rewrite filter_cons_True.
Qed.

Lemma patched_fmap_miss clock patch (t : Table) :
  (∀ r, r ∈ t → PipelineRaw.ID r ≠ PipelinePatch.ID patch) →
  patched clock patch <$> t = t.
Proof.
  intros Hall. induction t as [|r t IH]; [done|].
  rewrite fmap_cons, patched_miss by (apply Hall; left).
  f_equal. apply IH. intros r' Hr'. apply Hall. by right.
Qed.

(** X14. A pipeline just created, under an ID no other row carries, can be
    patched. The collaborators answer the patch on their own account,
    whatever they answered the create. When none of the patch's store
    calls fails and the cache takes the refreshed entity, a patch by the
    created ID that carries a status returns the pipeline with that status
    and the patch's updater, its name, creator and creation time kept, and
    the table holds it in place of the created row. When the store refuses
    the UPDATE the patch fails with that error and the table still holds
    the row as created. *)
Theorem create_then_patch FormatError create patch w p s F' :
  (CreatePipeline FormatError create w).1 = Ok p →
  (∀ r, r ∈ table w → PipelineRaw.ID r ≠ PipelineRaw.ID p) →
  PipelinePatch.ID patch = PipelineRaw.ID p →
  PipelinePatch.Status patch = Some s →
  let w' := with_faults F' (CreatePipeline FormatError create w).2 in
  (store_ok w' → f_upsert_cache F' (PipelineRaw.ID p) = None →
   ∃ p', (PatchPipeline FormatError patch w').1 = Ok p' ∧
     PipelineRaw.ID p' = PipelineRaw.ID p ∧
     PipelineRaw.CreatorID p' = PipelineCreate.CreatorID create ∧
     PipelineRaw.CreatedTs p' = PipelineRaw.CreatedTs p ∧
     PipelineRaw.Name p' = PipelineCreate.Name create ∧
     PipelineRaw.UpdaterID p' = PipelinePatch.UpdaterID patch ∧
     PipelineRaw.Status p' = s ∧
     table (PatchPipeline FormatError patch w').2 = table w ++ [p']) ∧
  (∀ e, f_begin F' = None → f_query F' = Some e →
     (PatchPipeline FormatError patch w').1 = Err (FormatError (FormatError e)) ∧
     table (PatchPipeline FormatError patch w').2 = table w ++ [p]).
Proof.
  intros Hp Hfresh Hid Hs. cbv zeta.
  rewrite CreatePipeline_eq in Hp |- *. cbv zeta in Hp |- *.
  destruct (f_begin (faults w)) eqn:Hb; [discriminate Hp|].
  destruct (f_query (faults w)) eqn:Hq; [discriminate Hp|].
  destruct (cursor_breaks_first (faults w)) eqn:Hcur; [discriminate Hp|].
  destruct (f_scan (faults w) _) eqn:Hscan; [discriminate Hp|].
  destruct (f_commit (faults w)) eqn:Hc; [discriminate Hp|].
  destruct (f_upsert_cache (faults w) (next_id w)) eqn:Hu; [discriminate Hp|].
  world_step. cbn [fst] in Hp. simplify_eq.
  set (row := created_row create w) in *.
  assert (PipelineRaw.ID row = next_id w) as Hrow by done.
  rewrite PatchPipeline_eq. cbv zeta. unfold with_faults. world_step. split.
  - intros [Hqok Hc'] Hu'. pose proof (store_ok_cursor _ Hqok) as Hcur'.
    destruct Hqok as (Hb' & Hq' & Hs' & _). cbn [faults] in Hb', Hq', Hs', Hc', Hcur'.
    rewrite Hb', Hq', Hcur'.
    rewrite (hits_fresh patch (table w) row) by (by rewrite ?Hid).
    rewrite Hs', Hc'.
    assert (patched (clock w) patch row
            = PipelineRaw.mk (next_id w) (PipelineCreate.CreatorID create) (clock w)
                (PipelinePatch.UpdaterID patch) (clock w) (PipelineCreate.Name create) s) as Hpat.
    { rewrite patched_hit by done. unfold apply_patch. rewrite Hs. reflexivity. }
    rewrite Hpat. cbn [PipelineRaw.ID]. rewrite Hrow in Hu'. rewrite Hu'. world_step.
    eexists; split; [reflexivity|]. split_and!; try done.
    rewrite fmap_app. cbn [fmap list_fmap]. rewrite Hpat. f_equal.
    apply patched_fmap_miss. intros r Hr. rewrite Hid. by apply Hfresh.
  - intros e Hb' Hq'. rewrite Hb', Hq'. world_step. done.
Qed.

Lemma create_then_patch_witness :
  (CreatePipeline same_error release_42 empty_world).1
    = Ok (PipelineRaw.mk 1 7 100 7 100 "release-42" PipelineOpen) ∧
  (∃ p', (PatchPipeline same_error close_1 (with_faults no_faults created_world)).1 = Ok p' ∧
         PipelineRaw.Status p' = PipelineDone ∧
         PipelineRaw.Name p' = "release-42") ∧
  (PatchPipeline same_error close_1 (with_faults statement_refused created_world)).1
    = Err (ExternalError "pq: statement refused") ∧
  table (PatchPipeline same_error close_1 (with_faults statement_refused created_world)).2
    = [PipelineRaw.mk 1 7 100 7 100 "release-42" PipelineOpen].
Proof.
  assert (∀ r : PipelineRaw, r ∈ table empty_world →
            PipelineRaw.ID r
            ≠ PipelineRaw.ID (PipelineRaw.mk 1 7 100 7 100 "release-42" PipelineOpen)) as Hfresh.
  { intros r Hr. by apply not_elem_of_nil in Hr. }
  split; [reflexivity|]. split.
  - destruct (create_then_patch same_error release_42 close_1 empty_world
                (PipelineRaw.mk 1 7 100 7 100 "release-42" PipelineOpen) PipelineDone no_faults
                eq_refl Hfresh eq_refl eq_refl) as [Hpatched _].
    destruct Hpatched as (p' & Hp' & _ & _ & _ & Hname & _ & Hst & _).
    + by repeat split.
    + reflexivity.
    + exists p'. split; [exact Hp'|]. split; [exact Hst | exact Hname].
  - destruct (create_then_patch same_error release_42 close_1 empty_world
                (PipelineRaw.mk 1 7 100 7 100 "release-42" PipelineOpen) PipelineDone
                statement_refused eq_refl Hfresh eq_refl eq_refl) as [_ Hrefused].
    exact (Hrefused _ eq_refl eq_refl).
Defined.
